(** * gadb: the device facade and the shell v2 reader

    A shallow embedding of [device.go] and [shell.go] of the gadb ADB
    client.  Go values are modelled as follows.

    - [string] is a finite sequence of bytes: Rocq's [string] (a list of
      [ascii], one per byte).
    - [uint32], [int], [int64] and [os.FileMode] are [Z]; conversions that
      truncate are written out with [Z.modulo].
    - [error] is a value carrying its message; [nil] is [None].
    - a slice is a [list]; where the code distinguishes the nil slice from
      an empty one the result is [option (list _)] and [None] is nil.
    - calls that leave the package boundary of the two files (the socket
      level transports) are recorded as [event]s in a trace; their outcome
      is given by an environment that sees the whole history. *)

From Stdlib Require Import ZArith List String Ascii Bool Lia.
From Stdlib Require Import Strings.Byte.
From Stdlib Require Import DecimalString DecimalN.
Import ListNotations.

Local Open Scope string_scope.
Local Open Scope Z_scope.

(** ** Go base values *)

Module Go.

(** The value behind Go's [error] interface: what [errors.New msg] builds.
    Two errors are told apart by their message. *)
Inductive error : Type :=
| errors_New (msg : string).

Definition Error (e : error) : string :=
  match e with errors_New m => m end.

(** [uint32(x)] for an integer [x] of any width: the low 32 bits. *)
Definition uint32 (x : Z) : Z := x mod 2 ^ 32.

(** The verb [%d] applied to an integer: optional sign, decimal digits. *)
Definition fmt_d (x : Z) : string :=
  match x with
  | Z0 => "0"
  | Zpos p => NilEmpty.string_of_uint (Pos.to_uint p)
  | Zneg p => String "-" (NilEmpty.string_of_uint (Pos.to_uint p))
  end.

(** [int64(x)]: the low 64 bits, read as a signed number. *)
Definition int64 (x : Z) : Z := (x + 2 ^ 63) mod 2 ^ 64 - 2 ^ 63.

(** [time.Time]: the wall word (a uint64), the extended seconds (an
    int64) and the location pointer.  The zero value has all three
    zero/nil; [==] compares the three fields. *)
Record Time : Type := mkTime {
  wall : Z;
  ext : Z;
  loc : option nat
}.

Definition Time_zero : Time := mkTime 0 0 None.

Definition hasMonotonic_bit : Z := 63.
Definition nsecShift : Z := 30.
(** Seconds from year 1 to 1885, and from year 1 to 1970. *)
Definition wallToInternal : Z :=
  (1884 * 365 + 1884 / 4 - 1884 / 100 + 1884 / 400) * 86400.
Definition unixToInternal : Z :=
  (1969 * 365 + 1969 / 4 - 1969 / 100 + 1969 / 400) * 86400.
Definition internalToUnix : Z := - unixToInternal.

(** [t.sec()]: seconds since year 1;
    [t.wall<<1>>(nsecShift+1)] is a shift pair on a uint64. *)
Definition sec (t : Time) : Z :=
  if Z.testbit (wall t) hasMonotonic_bit then
    int64 (wallToInternal +
           Z.shiftr ((Z.shiftl (wall t) 1) mod 2 ^ 64) (nsecShift + 1))
  else ext t.

(** [t.Unix()] *)
Definition Unix (t : Time) : Z := int64 (sec t + internalToUnix).

Definition Time_eqb (a b : Time) : bool :=
  (wall a =? wall b) && (ext a =? ext b) &&
  match loc a, loc b with
  | None, None => true
  | Some x, Some y => Nat.eqb x y
  | _, _ => false
  end.

(** A Go string seen as its bytes. *)
Definition bytes : Type := list ascii.

Definition byte_val (c : ascii) : Z := Z.of_N (N_of_ascii c).

(** [s[i]] for an index in range. *)
Definition byte_at (s : bytes) (i : Z) : Z :=
  byte_val (nth (Z.to_nat i) s zero).

(** *** unicode/utf8 *)

Module utf8.

Definition RuneError : Z := 0xFFFD.
Definition RuneSelf : Z := 0x80.
Definition UTFMax : Z := 4.

Definition maskx : Z := 0x3F.
Definition mask2 : Z := 0x1F.
Definition mask3 : Z := 0x0F.
Definition mask4 : Z := 0x07.
Definition locb : Z := 0x80.
Definition hicb : Z := 0xBF.

(** Entries of the table [first]. *)
Definition xx : Z := 0xF1.
Definition as_ : Z := 0xF0.
Definition s1 : Z := 0x02.
Definition s2 : Z := 0x13.
Definition s3 : Z := 0x03.
Definition s4 : Z := 0x23.
Definition s5 : Z := 0x34.
Definition s6 : Z := 0x04.
Definition s7 : Z := 0x44.

(** The table [first], by ranges of the leading byte. *)
Definition first (b : Z) : Z :=
  if b <? 0x80 then as_
  else if b <? 0xC2 then xx
  else if b <? 0xE0 then s1
  else if b =? 0xE0 then s2
  else if b <? 0xED then s3
  else if b =? 0xED then s4
  else if b <? 0xF0 then s3
  else if b =? 0xF0 then s5
  else if b <? 0xF4 then s6
  else if b =? 0xF4 then s7
  else xx.

Record acceptRange : Type := mkRange { lo : Z; hi : Z }.

Definition acceptRanges (i : Z) : acceptRange :=
  if i =? 0 then mkRange locb hicb
  else if i =? 1 then mkRange 0xA0 hicb
  else if i =? 2 then mkRange locb 0x9F
  else if i =? 3 then mkRange 0x90 hicb
  else if i =? 4 then mkRange locb 0x8F
  else mkRange 0 0.

(** [utf8.DecodeRuneInString]: the rune at the head of [s] and its width.
    Ill-formed input gives [(RuneError, 1)], the empty string
    [(RuneError, 0)]. *)
Definition DecodeRuneInString (s : bytes) : Z * Z :=
  match s with
  | [] => (RuneError, 0)
  | c0 :: t0 =>
    let n := Z.of_nat (List.length s) in
    let b0 := byte_val c0 in
    let x := first b0 in
    if as_ <=? x then
      (if x =? xx then RuneError else b0, 1)
    else
      let sz := Z.land x 7 in
      let accept := acceptRanges (Z.shiftr x 4) in
      if n <? sz then (RuneError, 1) else
      match t0 with
      | [] => (RuneError, 1)
      | c1 :: t1 =>
        let b1 := byte_val c1 in
        if (b1 <? lo accept) || (hi accept <? b1) then (RuneError, 1) else
        if sz <=? 2 then
          (Z.lor (Z.shiftl (Z.land b0 mask2) 6) (Z.land b1 maskx), 2)
        else
        match t1 with
        | [] => (RuneError, 1)
        | c2 :: t2 =>
          let b2 := byte_val c2 in
          if (b2 <? locb) || (hicb <? b2) then (RuneError, 1) else
          if sz <=? 3 then
            (Z.lor (Z.lor (Z.shiftl (Z.land b0 mask3) 12)
                          (Z.shiftl (Z.land b1 maskx) 6))
                   (Z.land b2 maskx), 3)
          else
          match t2 with
          | [] => (RuneError, 1)
          | c3 :: _ =>
            let b3 := byte_val c3 in
            if (b3 <? locb) || (hicb <? b3) then (RuneError, 1) else
            (Z.lor (Z.lor (Z.lor (Z.shiftl (Z.land b0 mask4) 18)
                                 (Z.shiftl (Z.land b1 maskx) 12))
                          (Z.shiftl (Z.land b2 maskx) 6))
                   (Z.land b3 maskx), 4)
          end
        end
      end
  end.

(** [utf8.RuneStart]: not a continuation byte. *)
Definition RuneStart (b : Z) : bool :=
  negb (Z.land b 0xC0 =? 0x80).

(** The [for start--; start >= lim; start--] loop of
    [DecodeLastRuneInString]; it runs at most [UTFMax] times. *)
Fixpoint backUp (n : nat) (s : bytes) (lim start : Z) : Z :=
  match n with
  | O => start
  | S k =>
    if start <? lim then start
    else if RuneStart (byte_at s start) then start
    else backUp k s lim (start - 1)
  end.

(** [utf8.DecodeLastRuneInString]: the rune at the tail of [s] and its
    width. *)
Definition DecodeLastRuneInString (s : bytes) : Z * Z :=
  let end_ := Z.of_nat (List.length s) in
  if end_ =? 0 then (RuneError, 0) else
  let start := end_ - 1 in
  let r := byte_at s start in
  if r <? RuneSelf then (r, 1) else
  let lim := Z.max 0 (end_ - UTFMax) in
  let start := backUp (Z.to_nat UTFMax) s lim (start - 1) in
  let start := Z.max 0 start in
  let '(r, size) := DecodeRuneInString (skipn (Z.to_nat start) s) in
  if negb (start + size =? end_) then (RuneError, 1) else (r, size).

End utf8.

(** *** unicode *)

Module unicode.

Definition MaxLatin1 : Z := 0xFF.

(** The range table [White_Space] above Latin-1. *)
Definition White_Space_excludingLatin (r : Z) : bool :=
  (r =? 0x1680) || ((0x2000 <=? r) && (r <=? 0x200a)) ||
  ((0x2028 <=? r) && (r <=? 0x2029)) || (r =? 0x202f) ||
  (r =? 0x205f) || (r =? 0x3000).

(** [unicode.IsSpace]; [uint32(r) <= MaxLatin1] splits the two tables. *)
Definition IsSpace (r : Z) : bool :=
  if uint32 r <=? MaxLatin1 then
    (r =? 9) || (r =? 10) || (r =? 11) || (r =? 12) || (r =? 13) ||
    (r =? 32) || (r =? 0x85) || (r =? 0xA0)
  else White_Space_excludingLatin r.

End unicode.

(** *** strings *)

Module strings.

(** [for i, r := range s]: the runes of [s] from left to right, each with
    its index and its width. [fuel] bounds the number of runes; the length
    of [s] is always enough. *)
Fixpoint range_from (fuel : nat) (i : Z) (s : bytes) : list (Z * Z * Z) :=
  match fuel with
  | O => []
  | S k =>
    match s with
    | [] => []
    | _ :: _ =>
      let '(r, w) := utf8.DecodeRuneInString s in
      (i, r, w) :: range_from k (i + w) (skipn (Z.to_nat w) s)
    end
  end.

Definition range (s : bytes) : list (Z * Z * Z) :=
  range_from (List.length s) 0 s.

(** [indexFunc]: the index of the first rune [r] with [f r = truth], or -1. *)
Fixpoint indexFunc_loop (f : Z -> bool) (truth : bool)
    (rs : list (Z * Z * Z)) : Z :=
  match rs with
  | [] => -1
  | (i, r, _) :: rest =>
    if Bool.eqb (f r) truth then i else indexFunc_loop f truth rest
  end.

Definition indexFunc (s : bytes) (f : Z -> bool) (truth : bool) : Z :=
  indexFunc_loop f truth (range s).

(** [lastIndexFunc]: the same from the right, decoding backwards. *)
Fixpoint lastIndexFunc_loop (fuel : nat) (s : bytes) (f : Z -> bool)
    (truth : bool) (i : Z) : Z :=
  match fuel with
  | O => -1
  | S k =>
    if 0 <? i then
      let '(r, size) := utf8.DecodeLastRuneInString (firstn (Z.to_nat i) s) in
      let i := i - size in
      if Bool.eqb (f r) truth then i else lastIndexFunc_loop k s f truth i
    else -1
  end.

Definition lastIndexFunc (s : bytes) (f : Z -> bool) (truth : bool) : Z :=
  lastIndexFunc_loop (List.length s) s f truth (Z.of_nat (List.length s)).

Definition TrimLeftFunc (s : bytes) (f : Z -> bool) : bytes :=
  let i := indexFunc s f false in
  if i =? -1 then [] else skipn (Z.to_nat i) s.

Definition TrimRightFunc (s : bytes) (f : Z -> bool) : bytes :=
  let i := lastIndexFunc s f false in
  let i :=
    if (0 <=? i) && (utf8.RuneSelf <=? byte_at s i) then
      i + snd (utf8.DecodeRuneInString (skipn (Z.to_nat i) s))
    else i + 1 in
  firstn (Z.to_nat i) s.

Definition TrimFunc (s : bytes) (f : Z -> bool) : bytes :=
  TrimRightFunc (TrimLeftFunc s f) f.

(** [strings.FieldsFunc]: the maximal runs of runes that do not satisfy
    [f]. [start] is the open span, if any. *)
Fixpoint FieldsFunc_loop (s : bytes) (f : Z -> bool) (start : option Z)
    (rs : list (Z * Z * Z)) : list bytes :=
  match rs with
  | [] =>
    match start with
    | Some b => [skipn (Z.to_nat b) s]
    | None => []
    end
  | (end_, r, _) :: rest =>
    if f r then
      match start with
      | Some b =>
        firstn (Z.to_nat (end_ - b)) (skipn (Z.to_nat b) s)
          :: FieldsFunc_loop s f None rest
      | None => FieldsFunc_loop s f None rest
      end
    else
      match start with
      | Some _ => FieldsFunc_loop s f start rest
      | None => FieldsFunc_loop s f (Some end_) rest
      end
  end.

Definition FieldsFunc (s : bytes) (f : Z -> bool) : list bytes :=
  FieldsFunc_loop s f None (range s).

(** [strings.Split] for a separator of one byte: the pieces between the
    occurrences of [sep], at least one piece. *)
Fixpoint Split_bytes (sep : ascii) (cur : bytes) (s : bytes) : list bytes :=
  match s with
  | [] => [rev cur]
  | c :: t =>
    if Ascii.eqb c sep then rev cur :: Split_bytes sep [] t
    else Split_bytes sep (c :: cur) t
  end.

(** The functions at type [string]. [TrimSpace] and [Fields] are
    [TrimFunc] and [FieldsFunc] at [unicode.IsSpace]; the library's fast
    path for ASCII input computes the same value. *)
Definition TrimSpace (s : string) : string :=
  string_of_list_ascii (TrimFunc (list_ascii_of_string s) unicode.IsSpace).

Definition Fields (s : string) : list string :=
  map string_of_list_ascii
      (FieldsFunc (list_ascii_of_string s) unicode.IsSpace).

Definition Split (s : string) (sep : ascii) : list string :=
  map string_of_list_ascii (Split_bytes sep [] (list_ascii_of_string s)).

(** [strings.Join]. *)
Definition Join (elems : list string) (sep : string) : string :=
  String.concat sep elems.

End strings.

End Go.

(** ** device.go: DeviceFileInfo *)

Record DeviceFileInfo : Type := mkDeviceFileInfo {
  Name : string;
  Mode : Z;            (* os.FileMode, a uint32 *)
  Size : Z;            (* uint32 *)
  LastModified : Go.Time
}.

(** [(info.Mode & (1 << 14)) == (1 << 14)] *)
Definition IsDir (info : DeviceFileInfo) : bool :=
  Z.land (Mode info) (Z.shiftl 1 14) =? Z.shiftl 1 14.

(** [os.FileMode(0664)], octal. *)
Definition DefaultFileMode : Z := 436.

(** [a == b] on the struct: field by field. *)
Definition DeviceFileInfo_eqb (a b : DeviceFileInfo) : bool :=
  (Name a =? Name b)%string && (Mode a =? Mode b) && (Size a =? Size b) &&
  Go.Time_eqb (LastModified a) (LastModified b).

(** [DeviceFileInfo{}] *)
Definition DeviceFileInfo_zero : DeviceFileInfo :=
  mkDeviceFileInfo "" 0 0 Go.Time_zero.

Record DeviceForward : Type := mkDeviceForward {
  Serial : string;
  Local : string;
  Remote : string
}.

(** The fields of [Client] that device.go reads. *)
Record Client : Type := mkClient {
  host : string;
  port : Z
}.

(** [attrs] is a [map[string]string]; the functions below do not read
    it. *)
Record Device : Type := mkDevice {
  adbClient : Client;
  serial : string;
  attrs : list (string * string)
}.

(** ** The transports

    [transport], [syncTransport] and [shellTransport] live in another file
    of the package.  device.go only calls their methods; each call is an
    [event], and a run of a device function is the list of events it
    performs, in order. *)

Inductive event : Type :=
| newTransport (address : string)
| tp_Send (command : string)
| tp_VerifyResponse
| tp_ReadBytesAll
| tp_CreateSyncTransport
| tp_CreateShellTransport
| tp_Close
| sync_Send (command data : string)
| sync_ReadDirectoryEntry
| sync_SendStream (source : list byte)
| sync_SendStatus (statusCode : string) (n : Z)
| sync_VerifyStatus
| sync_Close.

Definition trace : Type := list event.

(** Shell v2 message ids, one byte each. *)
Definition shellMessageType : Type := Z.

(** Modelled from the spec: the values of the message ids, which are
    declared with [shellTransport]: 0 stdin, 1 stdout, 2 stderr, 3 exit,
    4 closeStdin, 5 windowSizeChange. *)
Definition shellStdin : shellMessageType := 0.
Definition shellStdout : shellMessageType := 1.
Definition shellStderr : shellMessageType := 2.
Definition shellExit : shellMessageType := 3.
Definition shellCloseStdin : shellMessageType := 4.
Definition shellWindowSizeChange : shellMessageType := 5.

(** What one call of [st.Read()] returns: [(msgType, data, err)]. *)
Definition read_result : Type :=
  (shellMessageType * list byte * option Go.error)%type.

(** The daemon and the network, as far as the device functions can see
    them.  [outcome h e] is the error returned by the call [e] made after
    the calls [h]; [read_all h] the bytes [ReadBytesAll] returns then.
    [dir_entries] and [shell_msgs] are the successive results of
    [ReadDirectoryEntry] and of [shellTransport.Read]; once they are
    used up the peer stays silent and the call does not return. *)
Record env : Type := mkEnv {
  outcome : trace -> event -> option Go.error;
  read_all : trace -> list byte;
  dir_entries : list (DeviceFileInfo * option Go.error);
  shell_msgs : list read_result
}.

(** Computations that perform calls: [None] stands for a call that never
    returns. *)
Definition M (A : Type) : Type := trace -> option (A * trace).

Definition ret {A} (a : A) : M A := fun tr => Some (a, tr).

Definition bind {A B} (c : M A) (k : A -> M B) : M B :=
  fun tr =>
    match c tr with
    | Some (a, tr') => k a tr'
    | None => None
    end.

Declare Scope go_scope.
Delimit Scope go_scope with go.
Notation "x <- c ;; k" := (bind c (fun x => k))
  (at level 61, c at next level, right associativity) : go_scope.
Notation "' p <- c ;; k" := (bind c (fun x => let 'p := x in k))
  (at level 61, p pattern, c at next level, right associativity) : go_scope.

(** [defer cleanup] around [body]: [cleanup] runs when [body] returns. *)
Definition defer {A} (cleanup : M unit) (body : M A) : M A :=
  (r <- body ;; _ <- cleanup ;; ret r)%go.

(** ** shell.go *)

(** [io.Pipe()]: [buf] is what the read end has been handed so far,
    [rclosed] that the read end was closed by its owner, [wclosed] that
    the write end was closed, after which the read end reports [io.EOF]. *)
Record pipe : Type := mkPipe {
  buf : list byte;
  rclosed : bool;
  wclosed : bool
}.

Definition io_Pipe : pipe := mkPipe [] false false.

Definition io_ErrClosedPipe : Go.error :=
  Go.errors_New "io: read/write on closed pipe".

(** [pw.Write(data)] *)
Definition pw_Write (pw : pipe) (data : list byte) : pipe * option Go.error :=
  if rclosed pw then (pw, Some io_ErrClosedPipe)
  else (mkPipe (buf pw ++ data)%list (rclosed pw) (wclosed pw), None).

(** [pw.Close()] *)
Definition pw_Close (pw : pipe) : pipe :=
  mkPipe (buf pw) (rclosed pw) true.

(** The goroutine of [newShellReader]: [reads] are the results of the
    successive calls of [st.Read()].  When they are used up the goroutine
    is parked in [Read] and the pipe stays open.  The second component is
    what was not read. *)
Fixpoint newShellReader_loop (reads : list read_result) (pw : pipe)
    : pipe * list read_result :=
  match reads with
  | [] => (pw, [])
  | (msgType, data, err) :: rest =>
    match err with
    | Some _ => (pw_Close pw, rest)
    | None =>
      if (msgType =? shellStdout) || (msgType =? shellStderr) then
        if (0 <? Z.of_nat (List.length data)) then
          match pw_Write pw data with
          | (pw', Some _) => (pw_Close pw', rest)
          | (pw', None) => newShellReader_loop rest pw'
          end
        else newShellReader_loop rest pw
      else if msgType =? shellExit then (pw_Close pw, rest)
      else if msgType =? shellCloseStdin then newShellReader_loop rest pw
      else newShellReader_loop rest pw
    end
  end.

(** [newShellReader(st)]: the pipe the returned reader drains. *)
Definition newShellReader (reads : list read_result) : pipe :=
  fst (newShellReader_loop reads io_Pipe).

(** [io.ReadAll] on the read end: the bytes and a nil error once the write
    end is closed (the end of the stream); it does not return before.  On
    a read end that its owner has closed it fails. *)
Definition io_ReadAll (pr : pipe) : option (list byte * option Go.error) :=
  if rclosed pr then Some (buf pr, Some io_ErrClosedPipe)
  else if wclosed pr then Some (buf pr, None)
  else None.

(** Modelled from the spec: [shellTransport] and its [Close], which are
    declared in the transport file.  [Close] releases the socket and
    returns what releasing it returned; it is idempotent: on a transport
    that is closed already it does nothing and returns nil.  It writes
    nothing.  [sent] are the bytes written to the socket so far,
    [sock_err] is the result of releasing the socket. *)
Record shellTransport : Type := mkShellTransport {
  sock_closed : bool;
  sent : list byte
}.

Definition shellTransport_Close (sock_err : option Go.error)
    (st : shellTransport) : option Go.error * shellTransport :=
  if sock_closed st then (None, st)
  else (sock_err, mkShellTransport true (sent st)).

Record Shell : Type := mkShell {
  st : shellTransport;
  Reader : pipe
}.

(** [func (s *Shell) Close() error { return s.st.Close() }] *)
Definition Shell_Close (sock_err : option Go.error) (s : Shell)
    : option Go.error * Shell :=
  let '(err, st') := shellTransport_Close sock_err (st s) in
  (err, mkShell st' (Reader s)).

(** ** device.go: the device functions *)

Local Open Scope go_scope.

(** What [newTransport] returns; [transport{}] has the empty address. *)
Record transport : Type := mkTransport {
  address : string
}.

Definition transport_zero : transport := mkTransport "".

Definition err_empty_command : Go.error :=
  Go.errors_New "adb shell: command cannot be empty".

Section DeviceFunctions.

Variable E : env.

(** One call into the transport layer: it is appended to the trace and
    the environment decides its error. *)
Definition call (e : event) : M (option Go.error) :=
  fun tr => Some (outcome E tr e, (tr ++ [e])%list).

(** [_ = tp.Close()] and [_ = sync.Close()] *)
Definition tp_Close_ : M unit := _ <- call tp_Close ;; ret tt.
Definition sync_Close_ : M unit := _ <- call sync_Close ;; ret tt.

(** [tp.ReadBytesAll()] *)
Definition ReadBytesAll : M (list byte * option Go.error) :=
  fun tr =>
    Some ((read_all E tr, outcome E tr tp_ReadBytesAll),
          (tr ++ [tp_ReadBytesAll])%list).

Definition createDeviceTransport (d : Device)
    : M (transport * option Go.error) :=
  let addr := host (adbClient d) ++ ":" ++ Go.fmt_d (port (adbClient d)) in
  err <- call (newTransport addr) ;;
  match err with
  | Some _ => ret (transport_zero, err)
  | None =>
    let tp := mkTransport addr in
    err <- call (tp_Send ("host:transport:" ++ serial d)) ;;
    match err with
    | Some _ => ret (transport_zero, err)
    | None =>
      err <- call tp_VerifyResponse ;;
      ret (tp, err)
    end
  end.

Definition executeCommand (d : Device) (command : string)
    (onlyVerifyResponse : list bool) : M (list byte * option Go.error) :=
  let onlyVerifyResponse :=
    if Nat.eqb (List.length onlyVerifyResponse) 0 then [false]
    else onlyVerifyResponse in
  '(tp, err) <- createDeviceTransport d ;;
  match err with
  | Some _ => ret ([], err)
  | None =>
    defer tp_Close_ (
      err <- call (tp_Send command) ;;
      match err with
      | Some _ => ret ([], err)
      | None =>
        err <- call tp_VerifyResponse ;;
        match err with
        | Some _ => ret ([], err)
        | None =>
          if nth 0 onlyVerifyResponse false then ret ([], None)
          else ReadBytesAll
        end
      end)
  end.

(** The command line of the three [RunShellCommand] functions:
    [cmd] alone, or [fmt.Sprintf("%s %s", cmd, strings.Join(args, " "))]. *)
Definition shell_cmd (cmd : string) (args : list string) : string :=
  if (0 <? List.length args)%nat
  then cmd ++ " " ++ Go.strings.Join args " "
  else cmd.

Definition RunShellCommandWithBytes (d : Device) (cmd : string)
    (args : list string) : M (list byte * option Go.error) :=
  let cmd := shell_cmd cmd args in
  if (Go.strings.TrimSpace cmd =? "")%string then
    ret ([], Some err_empty_command)
  else
    '(raw, err) <- executeCommand d ("shell:" ++ cmd) [] ;;
    ret (raw, err).

Definition RunShellCommand (d : Device) (cmd : string) (args : list string)
    : M (string * option Go.error) :=
  '(raw, err) <- RunShellCommandWithBytes d cmd args ;;
  ret (string_of_list_byte raw, err).

Definition RunShellCommandAsync (d : Device) (cmd : string)
    (args : list string) : M (option Shell * option Go.error) :=
  let cmd := shell_cmd cmd args in
  if (Go.strings.TrimSpace cmd =? "")%string then
    ret (None, Some err_empty_command)
  else
    '(tp, err) <- createDeviceTransport d ;;
    match err with
    | Some _ => ret (None, err)
    | None =>
      err <- call (tp_Send ("shell:" ++ cmd)) ;;
      match err with
      | Some _ => _ <- tp_Close_ ;; ret (None, err)
      | None =>
        err <- call tp_VerifyResponse ;;
        match err with
        | Some _ => _ <- tp_Close_ ;; ret (None, err)
        | None =>
          err <- call tp_CreateShellTransport ;;
          match err with
          | Some _ => _ <- tp_Close_ ;; ret (None, err)
          | None =>
            let shTp := mkShellTransport false [] in
            ret (Some (mkShell shTp (newShellReader (shell_msgs E))), None)
          end
        end
      end
    end.

(** The [for] loop of [List]: [replies] are the results of the successive
    calls of [sync.ReadDirectoryEntry()]. *)
Fixpoint List_loop (replies : list (DeviceFileInfo * option Go.error))
    (devFileInfos : list DeviceFileInfo)
    : M (list DeviceFileInfo * option Go.error) :=
  fun tr =>
    match replies with
    | [] => None
    | (entry, err) :: rest =>
      let tr := (tr ++ [sync_ReadDirectoryEntry])%list in
      match err with
      | Some _ => Some ((devFileInfos, err), tr)
      | None =>
        if DeviceFileInfo_eqb entry DeviceFileInfo_zero
        then Some ((devFileInfos, None), tr)
        else List_loop rest (devFileInfos ++ [entry])%list tr
      end
    end.

(** [Device.List]; the nil slice is [None]. *)
Definition List_ (d : Device) (remotePath : string)
    : M (option (list DeviceFileInfo) * option Go.error) :=
  '(tp, err) <- createDeviceTransport d ;;
  match err with
  | Some _ => ret (None, err)
  | None =>
    defer tp_Close_ (
      err <- call tp_CreateSyncTransport ;;
      match err with
      | Some _ => ret (None, err)
      | None =>
        defer sync_Close_ (
          err <- call (sync_Send "LIST" remotePath) ;;
          match err with
          | Some _ => ret (None, err)
          | None =>
            '(devFileInfos, err) <- List_loop (dir_entries E) [] ;;
            ret (Some devFileInfos, err)
          end)
      end)
  end.

(** [Device.Push]; [mode] is the variadic tail. *)
Definition Push (d : Device) (source : list byte) (remotePath : string)
    (modification : Go.Time) (mode : list Z) : M (option Go.error) :=
  let mode :=
    if Nat.eqb (List.length mode) 0 then [DefaultFileMode] else mode in
  '(tp, err) <- createDeviceTransport d ;;
  match err with
  | Some _ => ret err
  | None =>
    defer tp_Close_ (
      err <- call tp_CreateSyncTransport ;;
      match err with
      | Some _ => ret err
      | None =>
        defer sync_Close_ (
          let data := remotePath ++ "," ++ Go.fmt_d (nth 0 mode 0) in
          err <- call (sync_Send "SEND" data) ;;
          match err with
          | Some _ => ret err
          | None =>
            err <- call (sync_SendStream source) ;;
            match err with
            | Some _ => ret err
            | None =>
              err <- call (sync_SendStatus "DONE"
                             (Go.uint32 (Go.Unix modification))) ;;
              match err with
              | Some _ => ret err
              | None =>
                err <- call sync_VerifyStatus ;;
                match err with
                | Some _ => ret err
                | None => ret err
                end
              end
            end
          end)
      end)
  end.

(** The loop of [ReverseList] over [lines]. *)
Fixpoint ReverseList_loop (lines : list string)
    (deviceForwardList : list DeviceForward) : list DeviceForward :=
  match lines with
  | [] => deviceForwardList
  | l :: rest =>
    let line := Go.strings.TrimSpace l in
    if (line =? "")%string then ReverseList_loop rest deviceForwardList
    else
      let fields := Go.strings.Fields line in
      if (List.length fields <? 2)%nat then
        ReverseList_loop rest deviceForwardList
      else if Nat.eqb (List.length fields) 2 then
        ReverseList_loop rest
          (deviceForwardList ++
             [mkDeviceForward "host" (nth 0 fields "") (nth 1 fields "")])%list
      else
        ReverseList_loop rest
          (deviceForwardList ++
             [mkDeviceForward (nth 0 fields "") (nth 1 fields "")
                              (nth 2 fields "")])%list
  end.

(** [Device.ReverseList]; the nil slice is [None]. *)
Definition ReverseList (d : Device)
    : M (option (list DeviceForward) * option Go.error) :=
  '(raw, err) <- executeCommand d "reverse:list-forward" [] ;;
  match err with
  | Some _ => ret (None, err)
  | None =>
    let resp := string_of_list_byte raw in
    let lines := Go.strings.Split resp "010"%char in
    ret (Some (ReverseList_loop lines []), None)
  end.

End DeviceFunctions.

(** ** Vocabulary of the properties *)

(** A read that delivered a stdout or a stderr message. *)
Definition is_output (r : read_result) : bool :=
  let '(msgType, _, err) := r in
  match err with
  | Some _ => false
  | None => (msgType =? shellStdout) || (msgType =? shellStderr)
  end.

Definition payload (r : read_result) : list byte :=
  let '(_, data, _) := r in data.

(** The payloads of the stdout and stderr messages among [rs], in order,
    one after the other. *)
Definition combined_output (rs : list read_result) : list byte :=
  List.concat (map payload (filter is_output rs)).

(** A read that failed, or that delivered an exit message. *)
Definition ends_stream (r : read_result) : bool :=
  let '(msgType, _, err) := r in
  match err with
  | Some _ => true
  | None => msgType =? shellExit
  end.

(** The reads the goroutine gets to see: all up to and including the first
    that ends the stream. *)
Fixpoint messages_read (reads : list read_result) : list read_result :=
  match reads with
  | [] => []
  | r :: rest => if ends_stream r then [r] else r :: messages_read rest
  end.

(** Perform the calls [steps] in order; stop at the first that fails and
    return its error. *)
Fixpoint run_steps (E : env) (steps : list event) (tr : trace)
    : option Go.error * trace :=
  match steps with
  | [] => (None, tr)
  | e :: rest =>
    match outcome E tr e with
    | Some err => (Some err, (tr ++ [e])%list)
    | None => run_steps E rest (tr ++ [e])%list
    end
  end.

(** The address [createDeviceTransport] dials and the calls it makes when
    all of them succeed. *)
Definition device_address (d : Device) : string :=
  host (adbClient d) ++ ":" ++ Go.fmt_d (port (adbClient d)).

Definition handshake (d : Device) : trace :=
  [newTransport (device_address d);
   tp_Send ("host:transport:" ++ serial d);
   tp_VerifyResponse].

(** The three calls of [RunShellCommandAsync] on the device transport. *)
Definition shell_steps (cmd : string) (args : list string) : list event :=
  [tp_Send ("shell:" ++ shell_cmd cmd args);
   tp_VerifyResponse; tp_CreateShellTransport].

(** ** Environments for the examples *)

(** Every call succeeds; no data arrives. *)
Definition env_quiet : env :=
  mkEnv (fun _ _ => None) (fun _ => []) [] [].

Definition err_refused : Go.error := Go.errors_New "closed".

(** Every call succeeds except the [n]-th one (counting from 0). *)
Definition env_fail_at (n : nat) : env :=
  mkEnv (fun tr _ => if Nat.eqb (List.length tr) n then Some err_refused
                     else None)
        (fun _ => []) [] [].

Definition dev0 : Device :=
  mkDevice (mkClient "localhost" 5037) "emulator-5554" [].

(** The forward that one line of the [reverse:list-forward] answer stands
    for, if any: none for fewer than two fields, serial "host" for two
    fields, the first three fields otherwise. *)
Definition forward_of_line (line : string) : list DeviceForward :=
  match Go.strings.Fields line with
  | [] => []
  | [_] => []
  | [f1; f2] => [mkDeviceForward "host" f1 f2]
  | f1 :: f2 :: f3 :: _ => [mkDeviceForward f1 f2 f3]
  end.

(** A string made of white space only (possibly empty): every rune that
    [range] finds in it satisfies [unicode.IsSpace]. *)
Definition only_whitespace (s : string) : bool :=
  forallb (fun x : Z * Z * Z => let '(_, r, _) := x in Go.unicode.IsSpace r)
          (Go.strings.range (list_ascii_of_string s)).

(** A directory with one file: the entry, then the sentinel. *)
Definition entry_hosts : DeviceFileInfo :=
  mkDeviceFileInfo "hosts" 33188 56 (Go.mkTime 0 63835596800 (Some 1%nat)).

Definition env_listing : env :=
  mkEnv (fun _ _ => None) (fun _ => [])
        [(entry_hosts, None); (DeviceFileInfo_zero, None)] [].

(** An empty directory: the sentinel alone. *)
Definition env_empty_dir : env :=
  mkEnv (fun _ _ => None) (fun _ => []) [(DeviceFileInfo_zero, None)] [].

Definition nl : string := String "010" "".

(** The daemon answers [reverse:list-forward] with four lines. *)
Definition reverse_answer : string :=
  "tcp:1 tcp:2" ++ nl ++ "  " ++ nl ++
  "UsbFfs tcp:3 tcp:4 extra" ++ nl ++ "lonely" ++ nl.

Definition env_reverse : env :=
  mkEnv (fun _ _ => None) (fun _ => list_byte_of_string reverse_answer) [] [].

(** ** Runes and their bytes

    A second view of a string, used to reason on [Fields] and
    [TrimSpace]: the runes from left to right, each with the bytes it was
    decoded from. *)

(** [b] starts with a UTF-8 continuation byte. *)
Definition continuation (b : Go.bytes) : Prop :=
  match b with
  | [] => False
  | c :: _ => Go.utf8.locb <= Go.byte_val c <= Go.utf8.hicb
  end.

Fixpoint chunks_from (fuel : nat) (s : Go.bytes) : list (Z * Go.bytes) :=
  match fuel with
  | O => []
  | S k =>
    match s with
    | [] => []
    | _ :: _ =>
      let '(r, w) := Go.utf8.DecodeRuneInString s in
      (r, firstn (Z.to_nat w) s) :: chunks_from k (skipn (Z.to_nat w) s)
    end
  end.

Definition chunks (s : Go.bytes) : list (Z * Go.bytes) :=
  chunks_from (List.length s) s.

(** The fields of a list of runes: the maximal runs of runes that do not
    satisfy [f], as bytes. [cur] is the open field, if any. *)
Fixpoint fields_chunks (f : Z -> bool) (cur : option Go.bytes)
    (cs : list (Z * Go.bytes)) : list Go.bytes :=
  match cs with
  | [] =>
    match cur with
    | Some w => [w]
    | None => []
    end
  | (r, enc) :: rest =>
    if f r then
      match cur with
      | Some w => w :: fields_chunks f None rest
      | None => fields_chunks f None rest
      end
    else
      fields_chunks f (Some (match cur with
                             | Some w => (w ++ enc)%list
                             | None => enc
                             end)) rest
  end.

(** The bytes of [t] from index [i] on are white space runes, one after
    the other. *)
Definition spaces_from (t : Go.bytes) (i : Z) : Prop :=
  forallb (fun c : Z * Go.bytes => Go.unicode.IsSpace (fst c))
          (chunks (skipn (Z.to_nat i) t)) = true /\
  ~ continuation (skipn (Z.to_nat i) t).

(** ** device.go: the remaining functions *)

(** A Go [map[string]V] by its bindings; [m[k]] finds the binding of [k]. *)
Fixpoint map_lookup {V : Type} (m : list (string * V)) (k : string)
    : option V :=
  match m with
  | [] => None
  | (k', v) :: rest => if (k' =? k)%string then Some v else map_lookup rest k
  end.

(** [type DeviceState string] *)
Definition DeviceState : Type := string.

Definition StateUnknown : DeviceState := "UNKNOWN".
Definition StateOnline : DeviceState := "online".
Definition StateOffline : DeviceState := "offline".
Definition StateDisconnected : DeviceState := "disconnected".

Definition deviceStateStrings : list (string * DeviceState) :=
  [("", StateDisconnected); ("offline", StateOffline); ("device", StateOnline)].

Definition deviceStateConv (k : string) : DeviceState :=
  match map_lookup deviceStateStrings k with
  | Some deviceState => deviceState
  | None => StateUnknown
  end.

(** [type Port = string] *)
Definition TcpPort (port : Z) : string := "tcp:" ++ Go.fmt_d port.

Definition LocalAbstractPort (path : string) : string :=
  "localabstract:" ++ path.

Definition HasAttribute (d : Device) (key : string) : bool :=
  match map_lookup (attrs d) key with
  | Some _ => true
  | None => false
  end.

(** [d.attrs[key]]: the zero string for a missing key. *)
Definition attr (d : Device) (key : string) : string :=
  match map_lookup (attrs d) key with
  | Some v => v
  | None => ""
  end.

Definition Product (d : Device) : string * option Go.error :=
  if HasAttribute d "product" then (attr d "product", None)
  else ("", Some (Go.errors_New "does not have attribute: product")).

Definition Model (d : Device) : string * option Go.error :=
  if HasAttribute d "model" then (attr d "model", None)
  else ("", Some (Go.errors_New "does not have attribute: model")).

Definition Usb (d : Device) : string * option Go.error :=
  if HasAttribute d "usb" then (attr d "usb", None)
  else ("", Some (Go.errors_New "does not have attribute: usb")).

Definition transportId (d : Device) : string * option Go.error :=
  if HasAttribute d "transport_id" then (attr d "transport_id", None)
  else ("", Some (Go.errors_New "does not have attribute: transport_id")).

Definition DeviceInfo (d : Device) : list (string * string) := attrs d.

Definition Serial_ (d : Device) : string := serial d.

Definition IsUsb (d : Device) : bool * option Go.error :=
  let '(usb, err) := Usb d in
  match err with
  | Some _ => (false, err)
  | None => (negb (usb =? "")%string, None)
  end.

(** The functions that go through the [Client]: its two methods are
    declared in another file and are taken as parameters, each giving the
    result of one call. *)
Section ClientCalls.

Variable adbClient_executeCommand :
  Client -> string -> list bool -> string * option Go.error.

Variable adbClient_ForwardList :
  Client -> list DeviceForward * option Go.error.

Definition State (d : Device) : DeviceState * option Go.error :=
  let '(resp, err) :=
    adbClient_executeCommand (adbClient d)
      ("host-serial:" ++ serial d ++ ":get-state") [] in
  (deviceStateConv resp, err).

Definition DevicePath (d : Device) : string * option Go.error :=
  let '(resp, err) :=
    adbClient_executeCommand (adbClient d)
      ("host-serial:" ++ serial d ++ ":get-devpath") [] in
  (resp, err).

Definition Forward (d : Device) (local remote : string)
    (noRebind : list bool) : option Go.error :=
  let command :=
    if negb (Nat.eqb (List.length noRebind) 0) && nth 0 noRebind false then
      "host-serial:" ++ serial d ++ ":forward:norebind:" ++ local ++ ";"
        ++ remote
    else
      "host-serial:" ++ serial d ++ ":forward:" ++ local ++ ";" ++ remote in
  let '(_, err) := adbClient_executeCommand (adbClient d) command [true] in
  err.

(** The loop of [ForwardList] over [forwardList]. *)
Fixpoint ForwardList_loop (d : Device) (forwardList : list DeviceForward)
    (deviceForwardList : list DeviceForward) : list DeviceForward :=
  match forwardList with
  | [] => deviceForwardList
  | f :: rest =>
    if (Serial f =? serial d)%string
    then ForwardList_loop d rest (deviceForwardList ++ [f])%list
    else ForwardList_loop d rest deviceForwardList
  end.

(** [Device.ForwardList]; the nil slice is [None]. *)
Definition ForwardList (d : Device)
    : option (list DeviceForward) * option Go.error :=
  let '(forwardList, err) := adbClient_ForwardList (adbClient d) in
  match err with
  | Some _ => (None, err)
  | None => (Some (ForwardList_loop d forwardList []), None)
  end.

Definition ForwardKill (d : Device) (local : string) : option Go.error :=
  let '(_, err) :=
    adbClient_executeCommand (adbClient d)
      ("host-serial:" ++ serial d ++ ":killforward:" ++ local) [true] in
  err.

End ClientCalls.

Section MoreDeviceFunctions.

Variable E : env.

(** [AdbDaemonPort] is declared with the client. *)
Variable AdbDaemonPort : Z.

Definition EnableAdbOverTCP (d : Device) (port : list Z)
    : M (option Go.error) :=
  let port := if Nat.eqb (List.length port) 0 then [AdbDaemonPort] else port in
  '(_, err) <- executeCommand E d ("tcpip:" ++ Go.fmt_d (nth 0 port 0)) [true] ;;
  ret err.

(** [Device.PushFile]; [local_Stat] is the result of [local.Stat()], as
    the modification time and the error, [local] the content of the
    file. *)
Definition PushFile (d : Device) (local : list byte)
    (local_Stat : Go.Time * option Go.error) (remotePath : string)
    (modification : list Go.Time) : M (option Go.error) :=
  if Nat.eqb (List.length modification) 0 then
    let '(ModTime, err) := local_Stat in
    match err with
    | Some _ => ret err
    | None => Push E d local remotePath ModTime [DefaultFileMode]
    end
  else
    Push E d local remotePath (nth 0 modification Go.Time_zero)
         [DefaultFileMode].

Definition LogcatClear (d : Device) : M (option Go.error) :=
  '(_, err) <- executeCommand E d "shell:logcat -c" [] ;;
  ret err.

Definition Reverse (d : Device) (local remote : string)
    (noRebind : list bool) : M (option Go.error) :=
  let command :=
    if negb (Nat.eqb (List.length noRebind) 0) && nth 0 noRebind false then
      "reverse:forward:norebind:" ++ local ++ ";" ++ remote
    else
      "reverse:forward:" ++ local ++ ";" ++ remote in
  '(_, err) <- executeCommand E d command [true] ;;
  ret err.

Definition ReverseKill (d : Device) (local : string) : M (option Go.error) :=
  '(_, err) <- executeCommand E d ("reverse:killforward:" ++ local) [true] ;;
  ret err.

Definition ReverseKillAll (d : Device) : M (option Go.error) :=
  '(_, err) <- executeCommand E d "reverse:killforward-all" [true] ;;
  ret err.

End MoreDeviceFunctions.

(** A reply of [ReadDirectoryEntry] that ends the loop of [List]: a failed
    read, or the zero entry. *)
Definition ends_listing (r : DeviceFileInfo * option Go.error) : bool :=
  match snd r with
  | Some _ => true
  | None => DeviceFileInfo_eqb (fst r) DeviceFileInfo_zero
  end.


(** Every call succeeds and [ReadBytesAll] returns [hi] and a newline. *)
Definition env_hi : env :=
  mkEnv (fun _ _ => None) (fun _ => [x68; x69; x0a]) [] [].

(** * Properties *)

Import Go.

(** ** Facts on the model of the Go library *)

Section GoLibrary.

Local Open Scope list_scope.

Import utf8.

Lemma DecodeRuneInString_width (s : bytes) :
  s <> [] ->
  1 <= snd (DecodeRuneInString s) <= Z.of_nat (List.length s).
Proof.
  destruct s as [|c0 t0]; [congruence|]. intros _.
  unfold DecodeRuneInString. cbv zeta.
  destruct (as_ <=? first (byte_val c0)).
  { cbn [snd List.length]. lia. }
  destruct (_ <? _).
  { cbn [snd List.length]. lia. }
  destruct t0 as [|c1 t1].
  { cbn [snd List.length]. lia. }
  destruct (_ || _).
  { cbn [snd List.length]. lia. }
  destruct (_ <=? 2).
  { cbn [snd List.length]. lia. }
  destruct t1 as [|c2 t2].
  { cbn [snd List.length]. lia. }
  destruct (_ || _).
  { cbn [snd List.length]. lia. }
  destruct (_ <=? 3).
  { cbn [snd List.length]. lia. }
  destruct t2 as [|c3 t3].
  { cbn [snd List.length]. lia. }
  destruct (_ || _); cbn [snd List.length]; lia.
Qed.

(** A rune that is not the error rune was decoded from well-formed bytes,
    and what follows these bytes does not matter. *)
Lemma DecodeRuneInString_app (a b : bytes) :
  fst (DecodeRuneInString a) <> RuneError ->
  DecodeRuneInString (a ++ b) = DecodeRuneInString a.
Proof.
  destruct a as [|c0 t0]; [intros H; exfalso; apply H; reflexivity|].
  unfold DecodeRuneInString. cbv zeta. cbn [app].
  destruct (as_ <=? first (byte_val c0)); [reflexivity|].
  destruct (Z.of_nat (List.length (c0 :: t0)) <? _) eqn:Hn.
  { intros H; exfalso; apply H; reflexivity. }
  assert (Hn' : (Z.of_nat (List.length (c0 :: t0 ++ b))
                 <? Z.land (first (byte_val c0)) 7) = false).
  { apply Z.ltb_ge. apply Z.ltb_ge in Hn.
    cbn [List.length] in *. rewrite length_app. lia. }
  rewrite Hn'.
  destruct t0 as [|c1 t1]; [intros H; exfalso; apply H; reflexivity|].
  cbn [app].
  destruct (_ || _); [reflexivity|].
  destruct (_ <=? 2); [reflexivity|].
  destruct t1 as [|c2 t2]; [intros H; exfalso; apply H; reflexivity|].
  cbn [app].
  destruct (_ || _); [reflexivity|].
  destruct (_ <=? 3); [reflexivity|].
  destruct t2 as [|c3 t3]; [intros H; exfalso; apply H; reflexivity|].
  reflexivity.
Qed.

Lemma IsSpace_not_error (r : Z) :
  unicode.IsSpace r = true -> r <> RuneError.
Proof.
  intros H ->. vm_compute in H. discriminate.
Qed.

Lemma DecodeRuneInString_ascii (c : ascii) :
  byte_val c < RuneSelf -> DecodeRuneInString [c] = (byte_val c, 1).
Proof.
  intros H. unfold DecodeRuneInString. cbv zeta.
  unfold first. unfold RuneSelf in H.
  replace (byte_val c <? 128) with true by (symmetry; apply Z.ltb_lt; exact H).
  reflexivity.
Qed.

Lemma backUp_le (n : nat) (s : bytes) (lim : Z) :
  forall start, backUp n s lim start <= start.
Proof.
  induction n as [|n IH]; intros start; simpl; [lia|].
  destruct (start <? lim); [lia|].
  destruct (RuneStart _); [lia|].
  specialize (IH (start - 1)). lia.
Qed.

(** The rune found at the tail: its width fits, and a white space rune
    is the decoding of exactly the last [size] bytes. *)
Lemma DecodeLastRuneInString_spec (s : bytes) :
  s <> [] ->
  forall r size, DecodeLastRuneInString s = (r, size) ->
  1 <= size <= Z.of_nat (List.length s) /\
  (unicode.IsSpace r = true ->
   exists pre enc,
     s = pre ++ enc /\ Z.of_nat (List.length enc) = size /\
     DecodeRuneInString enc = (r, size)).
Proof.
  intros Hs r size. unfold DecodeLastRuneInString. cbv zeta.
  assert (Hlen : 0 < Z.of_nat (List.length s))
    by (destruct s; [congruence|cbn [List.length]; lia]).
  replace (Z.of_nat (List.length s) =? 0) with false
    by (symmetry; apply Z.eqb_neq; lia).
  destruct (byte_at s (Z.of_nat (List.length s) - 1) <? RuneSelf) eqn:Hascii.
  - intros H. injection H as <- <-. split; [lia|]. intros _.
    destruct (exists_last Hs) as [pre [a ->]].
    exists pre, [a]. split; [reflexivity|]. split; [reflexivity|].
    assert (Hb : byte_at (pre ++ [a])
                   (Z.of_nat (List.length (pre ++ [a])) - 1) = byte_val a).
    { unfold byte_at. f_equal.
      replace (Z.to_nat (Z.of_nat (List.length (pre ++ [a])) - 1))
        with (List.length pre) by (rewrite length_app; simpl; lia).
      apply nth_middle. }
    rewrite Hb in *. apply DecodeRuneInString_ascii.
    apply Z.ltb_lt. exact Hascii.
  - set (start := Z.max 0 (backUp (Z.to_nat UTFMax) s
                   (Z.max 0 (Z.of_nat (List.length s) - UTFMax))
                   (Z.of_nat (List.length s) - 1 - 1))).
    assert (Hstart : 0 <= start < Z.of_nat (List.length s)).
    { unfold start.
      pose proof (backUp_le (Z.to_nat UTFMax) s
                    (Z.max 0 (Z.of_nat (List.length s) - UTFMax))
                    (Z.of_nat (List.length s) - 1 - 1)).
      lia. }
    destruct (DecodeRuneInString (skipn (Z.to_nat start) s)) as [r' size'] eqn:Hd.
    assert (Hne : skipn (Z.to_nat start) s <> []).
    { intros Hnil. apply (f_equal (@List.length _)) in Hnil.
      rewrite length_skipn in Hnil. simpl in Hnil. lia. }
    pose proof (DecodeRuneInString_width _ Hne) as Hw.
    rewrite Hd in Hw. cbn [snd] in Hw. rewrite length_skipn in Hw.
    destruct (start + size' =? Z.of_nat (List.length s)) eqn:Hend; cbn [negb].
    + intros H. injection H as <- <-. apply Z.eqb_eq in Hend.
      split; [lia|]. intros _.
      exists (firstn (Z.to_nat start) s), (skipn (Z.to_nat start) s).
      split; [|split].
      * symmetry. apply firstn_skipn.
      * rewrite length_skipn. lia.
      * exact Hd.
    + intros H. injection H as <- <-. split; [lia|].
      intros Hsp. apply IsSpace_not_error in Hsp. congruence.
Qed.


Import strings.

Lemma range_from_In (fuel : nat) :
  forall i s j r w,
    In (j, r, w) (range_from fuel i s) ->
    i <= j < i + Z.of_nat (List.length s) /\
    DecodeRuneInString (skipn (Z.to_nat (j - i)) s) = (r, w).
Proof.
  induction fuel as [|k IH]; intros i s j r w Hin; [destruct Hin|].
  destruct s as [|c t]; [destruct Hin|].
  cbn [range_from] in Hin.
  destruct (DecodeRuneInString (c :: t)) as [r0 w0] eqn:Hd.
  pose proof (DecodeRuneInString_width (c :: t) ltac:(discriminate)) as Hw.
  rewrite Hd in Hw. cbn [snd] in Hw.
  destruct Hin as [Heq|Hin].
  - injection Heq as <- <- <-. split; [cbn [List.length]; lia|].
    replace (Z.to_nat (i - i)) with 0%nat by lia. exact Hd.
  - apply IH in Hin. destruct Hin as [Hj Hdec].
    rewrite length_skipn in Hj. split; [lia|].
    rewrite skipn_skipn in Hdec.
    replace (Z.to_nat (j - i))
      with (Z.to_nat (j - (i + w0)) + Z.to_nat w0)%nat by lia.
    exact Hdec.
Qed.

Lemma indexFunc_loop_spec (f : Z -> bool) (rs : list (Z * Z * Z)) :
  (indexFunc_loop f false rs = -1 /\
   forallb (fun x : Z * Z * Z => let '(_, r, _) := x in f r) rs = true) \/
  (exists j r w,
     indexFunc_loop f false rs = j /\ In (j, r, w) rs /\ f r = false /\
     forallb (fun x : Z * Z * Z => let '(_, r, _) := x in f r) rs = false).
Proof.
  induction rs as [|[[j r] w] rs IH]; [left; split; reflexivity|].
  cbn [indexFunc_loop forallb].
  destruct (f r) eqn:Hf; cbn [Bool.eqb andb].
  - destruct IH as [[H1 H2]|(j' & r' & w' & H1 & H2 & H3 & H4)].
    + left. split; assumption.
    + right. exists j', r', w'. repeat split; try assumption.
      right. exact H2.
  - right. exists j, r, w. repeat split; try assumption.
    left. reflexivity.
Qed.

(** Going backwards over white space only: the bytes passed start with a
    white space rune. *)
Lemma lastIndexFunc_loop_spec (t : bytes) (fuel : nat) :
  forall i,
    0 <= i <= Z.of_nat (List.length t) ->
    (Z.to_nat i <= fuel)%nat ->
    (lastIndexFunc_loop fuel t unicode.IsSpace false i = -1 /\
     (firstn (Z.to_nat i) t = [] \/
      unicode.IsSpace (fst (DecodeRuneInString (firstn (Z.to_nat i) t)))
        = true)) \/
    0 <= lastIndexFunc_loop fuel t unicode.IsSpace false i < i.
Proof.
  induction fuel as [|k IH]; intros i Hi Hfuel.
  - left. split; [reflexivity|]. left.
    replace (Z.to_nat i) with 0%nat by lia. reflexivity.
  - cbn [lastIndexFunc_loop].
    destruct (0 <? i) eqn:Hpos.
    2:{ left. split; [reflexivity|]. left. apply Z.ltb_ge in Hpos.
        replace (Z.to_nat i) with 0%nat by lia. reflexivity. }
    apply Z.ltb_lt in Hpos.
    assert (Hlen : List.length (firstn (Z.to_nat i) t) = Z.to_nat i)
      by (rewrite length_firstn; lia).
    assert (Hne : firstn (Z.to_nat i) t <> []).
    { intros Hnil. rewrite Hnil in Hlen. simpl in Hlen. lia. }
    destruct (DecodeLastRuneInString (firstn (Z.to_nat i) t)) as [r size] eqn:Hd.
    destruct (DecodeLastRuneInString_spec _ Hne _ _ Hd) as [Hsize Hsp].
    rewrite Hlen in Hsize.
    destruct (unicode.IsSpace r) eqn:Hr; cbn [Bool.eqb].
    2:{ right. lia. }
    destruct (Hsp eq_refl) as (pre & enc & Hsplit & Henc & Hdec).
    assert (Hpre : firstn (Z.to_nat (i - size)) t = pre).
    { assert (Hl : List.length pre = Z.to_nat (i - size)).
      { apply (f_equal (@List.length _)) in Hsplit.
        rewrite Hlen, length_app in Hsplit. lia. }
      rewrite <- Hl.
      replace (firstn (List.length pre) t)
        with (firstn (List.length pre) (firstn (Z.to_nat i) t)).
      - rewrite Hsplit, firstn_app, Nat.sub_diag, firstn_all.
        simpl. apply app_nil_r.
      - rewrite firstn_firstn. f_equal. lia. }
    destruct (IH (i - size) ltac:(lia) ltac:(lia)) as [[H1 H2]|H].
    + left. split; [exact H1|]. right. rewrite Hsplit.
      rewrite Hpre in H2. destruct H2 as [H2|H2].
      * rewrite H2. simpl. rewrite Hdec. exact Hr.
      * rewrite DecodeRuneInString_app; [exact H2|].
        apply IsSpace_not_error. exact H2.
    + right. lia.
Qed.

Lemma string_of_list_ascii_nil (l : bytes) :
  string_of_list_ascii l = ""%string <-> l = [].
Proof.
  destruct l; simpl; split; congruence.
Qed.

(** [TrimSpace s] is empty exactly when [s] is white space only. *)
Lemma TrimSpace_empty (s : string) :
  TrimSpace s = ""%string <-> only_whitespace s = true.
Proof.
  unfold TrimSpace, only_whitespace. rewrite string_of_list_ascii_nil.
  set (l := list_ascii_of_string s).
  unfold TrimFunc, TrimLeftFunc, indexFunc.
  destruct (indexFunc_loop_spec unicode.IsSpace (range l))
    as [[H1 H2]|(j & r & w & H1 & H2 & H3 & H4)].
  - rewrite H1, H2. simpl. split; reflexivity.
  - rewrite H1, H4. apply range_from_In in H2. destruct H2 as [Hj Hdec].
    replace (j - 0) with j in Hdec by lia.
    replace (j =? -1) with false by (symmetry; apply Z.eqb_neq; lia).
    split; [|discriminate]. intros Htrim. exfalso.
    set (t := skipn (Z.to_nat j) l) in *.
    assert (Ht : (0 < List.length t)%nat)
      by (unfold t; rewrite length_skipn; lia).
    unfold TrimRightFunc, lastIndexFunc in Htrim.
    destruct (lastIndexFunc_loop_spec t (List.length t)
                (Z.of_nat (List.length t)) ltac:(lia) ltac:(lia))
      as [[_ Hsp]|Hres].
    + rewrite Nat2Z.id, firstn_all in Hsp. destruct Hsp as [Hsp|Hsp].
      * rewrite Hsp in Ht. simpl in Ht. lia.
      * rewrite Hdec in Hsp. simpl in Hsp. congruence.
    + set (i := lastIndexFunc_loop (List.length t) t unicode.IsSpace false
                  (Z.of_nat (List.length t))) in *.
      assert (Hw : 1 <= snd (DecodeRuneInString (skipn (Z.to_nat i) t))).
      { apply DecodeRuneInString_width. intros Hnil.
        apply (f_equal (@List.length _)) in Hnil.
        rewrite length_skipn in Hnil. simpl in Hnil. lia. }
      apply (f_equal (@List.length _)) in Htrim.
      rewrite length_firstn in Htrim. simpl in Htrim.
      destruct ((0 <=? i) && (RuneSelf <=? byte_at t i)); lia.
Qed.


(** *** Runes and fields *)

Lemma first_cases (b0 : Z) :
  (as_ <=? first b0) = false ->
  2 <= Z.land (first b0) 7 <= 4 /\
  locb <= lo (acceptRanges (Z.shiftr (first b0) 4)) /\
  hi (acceptRanges (Z.shiftr (first b0) 4)) <= hicb.
Proof.
  unfold first.
  repeat match goal with
  | |- context [if ?c then _ else _] => destruct c
  end; vm_compute; intros H; try discriminate H;
  repeat split; discriminate.
Qed.

Ltac bool_to_Z :=
  repeat match goal with
  | H : (_ || _) = true |- _ => apply orb_true_iff in H
  | H : (_ || _) = false |- _ => apply orb_false_iff in H; destruct H
  | H : (_ <? _) = true |- _ => apply Z.ltb_lt in H
  | H : (_ <? _) = false |- _ => apply Z.ltb_ge in H
  | H : (_ <=? _) = true |- _ => apply Z.leb_le in H
  | H : (_ <=? _) = false |- _ => apply Z.leb_gt in H
  end.

Lemma DecodeRuneInString_boundary (a b : bytes) :
  a <> [] -> ~ continuation b ->
  DecodeRuneInString (a ++ b) = DecodeRuneInString a.
Proof.
  destruct a as [|c0 t0]; [congruence|]. intros _ Hb.
  unfold DecodeRuneInString. cbv zeta. cbn [app].
  destruct (as_ <=? first (byte_val c0)) eqn:Hx; [reflexivity|].
  destruct (first_cases _ Hx) as (Hsz & Hlo & Hhi).
  set (sz := Z.land (first (byte_val c0)) 7) in *.
  set (acc := acceptRanges (Z.shiftr (first (byte_val c0)) 4)) in *.
  clearbody sz acc. clear Hx.
  unfold locb, hicb in *.
  destruct t0 as [|c1 [|c2 [|c3 t3]]]; cbn [app List.length];
    rewrite ?length_app; cbn [List.length].
  all: destruct b as [|c b']; cbn [app List.length continuation] in *.
  all: repeat match goal with
       | |- context [if ?c then _ else _] => destruct c eqn:?
       end; try reflexivity; exfalso; bool_to_Z; unfold locb, hicb in *; lia.
Qed.

Lemma chunks_from_fuel (f1 : nat) :
  forall f2 s,
    (List.length s <= f1)%nat -> (List.length s <= f2)%nat ->
    chunks_from f1 s = chunks_from f2 s.
Proof.
  induction f1 as [|k IH]; intros f2 s H1 H2.
  - destruct s; [|simpl in H1; lia]. destruct f2; reflexivity.
  - destruct s as [|c t]; [destruct f2; reflexivity|].
    destruct f2 as [|k2]; [simpl in H2; lia|].
    cbn [chunks_from].
    destruct (DecodeRuneInString (c :: t)) as [r w] eqn:Hd.
    pose proof (DecodeRuneInString_width (c :: t) ltac:(discriminate)) as Hw.
    rewrite Hd in Hw. cbn [snd] in Hw. f_equal.
    apply IH; rewrite length_skipn; cbn [List.length] in *; lia.
Qed.

Lemma chunks_cons (s : bytes) (r w : Z) :
  s <> [] -> DecodeRuneInString s = (r, w) ->
  chunks s = (r, firstn (Z.to_nat w) s) :: chunks (skipn (Z.to_nat w) s).
Proof.
  intros Hs Hd. unfold chunks. destruct s as [|c t]; [congruence|].
  cbn [List.length chunks_from]. rewrite Hd. f_equal.
  pose proof (DecodeRuneInString_width (c :: t) ltac:(discriminate)) as Hw.
  rewrite Hd in Hw. cbn [snd] in Hw.
  apply chunks_from_fuel; rewrite length_skipn; cbn [List.length] in *; lia.
Qed.

Lemma chunks_app_aux (n : nat) :
  forall a b, (List.length a <= n)%nat -> ~ continuation b ->
  chunks (a ++ b) = chunks a ++ chunks b.
Proof.
  induction n as [|n IH]; intros a b Hn Hb.
  - destruct a; [reflexivity|simpl in Hn; lia].
  - destruct a as [|c t]; [reflexivity|].
    destruct (DecodeRuneInString (c :: t)) as [r w] eqn:Hd.
    pose proof (DecodeRuneInString_width (c :: t) ltac:(discriminate)) as Hw.
    rewrite Hd in Hw. cbn [snd] in Hw.
    assert (Hd' : DecodeRuneInString ((c :: t) ++ b) = (r, w)).
    { rewrite DecodeRuneInString_boundary; [exact Hd|discriminate|exact Hb]. }
    assert (Hne : c :: t <> []) by discriminate.
    assert (Hne' : (c :: t) ++ b <> []) by discriminate.
    rewrite (chunks_cons _ _ _ Hne' Hd'), (chunks_cons _ _ _ Hne Hd).
    rewrite firstn_app, skipn_app.
    replace (Z.to_nat w - List.length (c :: t))%nat with 0%nat by lia.
    cbn [firstn skipn]. rewrite app_nil_r.
    rewrite IH; [reflexivity| |exact Hb].
    rewrite length_skipn. cbn [List.length] in *. lia.
Qed.

Lemma chunks_app (a b : bytes) :
  ~ continuation b -> chunks (a ++ b) = chunks a ++ chunks b.
Proof.
  apply (chunks_app_aux (List.length a)). lia.
Qed.

Lemma firstn_plus {A} (n m : nat) :
  forall l : list A, firstn (n + m) l = firstn n l ++ firstn m (skipn n l).
Proof.
  induction n as [|n IH]; intros l; [reflexivity|].
  destruct l as [|x l]; [simpl; rewrite firstn_nil; reflexivity|].
  simpl. f_equal. apply IH.
Qed.

Lemma FieldsFunc_loop_chunks (f : Z -> bool) (s0 : bytes) (fuel : nat) :
  forall (i : nat) (start : option nat),
    (i <= List.length s0)%nat ->
    (forall b, start = Some b -> (b <= i)%nat) ->
    (List.length s0 - i <= fuel)%nat ->
    FieldsFunc_loop s0 f (option_map Z.of_nat start)
      (range_from fuel (Z.of_nat i) (skipn i s0)) =
    fields_chunks f
      (option_map (fun b => firstn (i - b) (skipn b s0)) start)
      (chunks_from fuel (skipn i s0)).
Proof.
  assert (Hend : forall (i : nat) (start : option nat),
            (List.length s0 <= i)%nat ->
            (forall b, start = Some b -> (b <= i)%nat) ->
            FieldsFunc_loop s0 f (option_map Z.of_nat start) [] =
            fields_chunks f
              (option_map (fun b => firstn (i - b) (skipn b s0)) start) []).
  { intros i [b|] Hi Hb; cbn; [|reflexivity].
    rewrite Nat2Z.id. rewrite firstn_all2 by (rewrite length_skipn; lia).
    reflexivity. }
  induction fuel as [|k IH]; intros i start Hi Hb Hfuel.
  - cbn [range_from chunks_from]. apply Hend; [lia|exact Hb].
  - destruct (skipn i s0) as [|c t] eqn:Hsk.
    + cbn [range_from chunks_from]. apply Hend; [|exact Hb].
      apply (f_equal (@List.length _)) in Hsk. rewrite length_skipn in Hsk.
      simpl in Hsk. lia.
    + cbn [range_from chunks_from].
      destruct (DecodeRuneInString (c :: t)) as [r w] eqn:Hd.
      pose proof (DecodeRuneInString_width (c :: t) ltac:(discriminate)) as Hw.
      rewrite Hd in Hw. cbn [snd] in Hw.
      assert (Hlen : List.length (c :: t) = (List.length s0 - i)%nat)
        by (rewrite <- Hsk; apply length_skipn).
      rewrite Hlen in Hw.
      rewrite <- Hsk. rewrite skipn_skipn.
      replace (Z.of_nat i + w) with (Z.of_nat (Z.to_nat w + i)) by lia.
      cbn [FieldsFunc_loop fields_chunks].
      destruct (f r); destruct start as [b|]; cbn [option_map].
      * rewrite Nat2Z.id.
        replace (Z.to_nat (Z.of_nat i - Z.of_nat b)) with (i - b)%nat by lia.
        apply f_equal.
        apply (IH (Z.to_nat w + i)%nat None); [lia|discriminate|lia].
      * apply (IH (Z.to_nat w + i)%nat None); [lia|discriminate|lia].
      * specialize (Hb b eq_refl).
        assert (IH' := IH (Z.to_nat w + i)%nat (Some b)).
        cbn [option_map] in IH'. rewrite IH';
          [|lia|intros b' Hb'; injection Hb' as <-; lia|lia].
        replace (Z.to_nat w + i - b)%nat with ((i - b) + Z.to_nat w)%nat by lia.
        rewrite firstn_plus, skipn_skipn.
        replace (i - b + b)%nat with i by lia. reflexivity.
      * assert (IH' := IH (Z.to_nat w + i)%nat (Some i)).
        cbn [option_map] in IH'. rewrite IH';
          [|lia|intros b' Hb'; injection Hb' as <-; lia|lia].
        replace (Z.to_nat w + i - i)%nat with (Z.to_nat w) by lia.
        reflexivity.
Qed.

Lemma FieldsFunc_chunks (f : Z -> bool) (s : bytes) :
  FieldsFunc s f = fields_chunks f None (chunks s).
Proof.
  unfold FieldsFunc, range, chunks.
  apply (FieldsFunc_loop_chunks f s (List.length s) 0%nat None);
    [lia|discriminate|lia].
Qed.

Lemma fields_chunks_spaces (f : Z -> bool) (cs1 cs2 : list (Z * bytes)) :
  forallb (fun c => f (fst c)) cs2 = true ->
  forall cur, fields_chunks f cur (cs1 ++ cs2) = fields_chunks f cur cs1.
Proof.
  intros H2. induction cs1 as [|[r enc] cs1 IH]; intros cur.
  - cbn [app]. revert cur.
    induction cs2 as [|[r enc] cs2 IH2]; intros cur; [reflexivity|].
    cbn [forallb fst] in H2. apply andb_true_iff in H2. destruct H2 as [Hr H2].
    cbn [fields_chunks]. rewrite Hr.
    destruct cur; rewrite (IH2 H2); reflexivity.
  - cbn [app fields_chunks]. destruct (f r); [destruct cur|]; rewrite ?IH; reflexivity.
Qed.

Lemma indexFunc_loop_fields (f : Z -> bool) (fuel : nat) :
  forall i s,
    (List.length s <= fuel)%nat ->
    let j := indexFunc_loop f false (range_from fuel i s) in
    (j = -1 /\ fields_chunks f None (chunks_from fuel s) = [] \/
     i <= j /\
     fields_chunks f None (chunks (skipn (Z.to_nat (j - i)) s)) =
     fields_chunks f None (chunks_from fuel s)).
Proof.
  induction fuel as [|k IH]; intros i s Hlen j.
  - left. split; reflexivity.
  - destruct s as [|c t]; [left; split; reflexivity|].
    subst j. cbn [range_from chunks_from].
    destruct (DecodeRuneInString (c :: t)) as [r w] eqn:Hd.
    pose proof (DecodeRuneInString_width (c :: t) ltac:(discriminate)) as Hw.
    rewrite Hd in Hw. cbn [snd] in Hw.
    cbn [indexFunc_loop fields_chunks].
    destruct (f r) eqn:Hf; cbn [Bool.eqb].
    + assert (Hl : (List.length (skipn (Z.to_nat w) (c :: t)) <= k)%nat)
        by (rewrite length_skipn; cbn [List.length] in *; lia).
      destruct (IH (i + w) _ Hl) as [[H1 H2]|[H1 H2]].
      * left. split; assumption.
      * right. split; [lia|]. rewrite <- H2. rewrite skipn_skipn.
        do 3 f_equal. lia.
    + right. split; [lia|].
      replace (Z.to_nat (i - i)) with 0%nat by lia. cbn [skipn].
      assert (Hne : c :: t <> []) by discriminate.
      rewrite (chunks_cons _ _ _ Hne Hd).
      cbn [fields_chunks]. rewrite Hf. do 2 f_equal.
      apply chunks_from_fuel; rewrite length_skipn; cbn [List.length] in *; lia.
Qed.

Lemma TrimLeftFunc_fields (f : Z -> bool) (s : bytes) :
  fields_chunks f None (chunks (TrimLeftFunc s f)) =
  fields_chunks f None (chunks s).
Proof.
  unfold TrimLeftFunc, indexFunc, range.
  destruct (indexFunc_loop_fields f (List.length s) 0 s (le_n _))
    as [[H1 H2]|[H1 H2]].
  - rewrite H1. cbn. unfold chunks. rewrite H2. reflexivity.
  - set (j := indexFunc_loop f false (range_from (List.length s) 0 s)) in *.
    replace (j =? -1) with false by (symmetry; apply Z.eqb_neq; lia).
    replace (j - 0) with j in H2 by lia. exact H2.
Qed.

Lemma DecodeRuneInString_ascii_head (c : ascii) (t : bytes) :
  byte_val c < RuneSelf -> DecodeRuneInString (c :: t) = (byte_val c, 1).
Proof.
  intros H. unfold DecodeRuneInString. cbv zeta.
  unfold first. unfold RuneSelf in H.
  replace (byte_val c <? 128) with true by (symmetry; apply Z.ltb_lt; exact H).
  reflexivity.
Qed.

Lemma continuation_error (s : bytes) :
  continuation s -> fst (DecodeRuneInString s) = RuneError.
Proof.
  destruct s as [|c t]; [intros []|]. cbn [continuation].
  unfold locb, hicb. intros H.
  unfold DecodeRuneInString. cbv zeta. unfold first.
  replace (byte_val c <? 128) with false by (symmetry; apply Z.ltb_ge; lia).
  replace (byte_val c <? 194) with true by (symmetry; apply Z.ltb_lt; lia).
  reflexivity.
Qed.

(** The rune found at the tail of [s] and the bytes it was read from. *)
Lemma DecodeLastRuneInString_tail (s : bytes) (r size : Z) :
  s <> [] ->
  DecodeLastRuneInString s = (r, size) ->
  exists pre enc,
    s = pre ++ enc /\ Z.of_nat (List.length enc) = size /\ enc <> [] /\
    (unicode.IsSpace r = true -> DecodeRuneInString enc = (r, size)) /\
    (if RuneSelf <=? byte_val (hd zero enc)
     then snd (DecodeRuneInString enc) else 1) = size.
Proof.
  intros Hs. unfold DecodeLastRuneInString. cbv zeta.
  assert (Hlen : 0 < Z.of_nat (List.length s))
    by (destruct s; [congruence|cbn [List.length]; lia]).
  replace (Z.of_nat (List.length s) =? 0) with false
    by (symmetry; apply Z.eqb_neq; lia).
  destruct (exists_last Hs) as [pre [a Hsa]].
  assert (Hb : byte_at s (Z.of_nat (List.length s) - 1) = byte_val a).
  { rewrite Hsa. unfold byte_at. f_equal.
    replace (Z.to_nat (Z.of_nat (List.length (pre ++ [a])) - 1))
      with (List.length pre) by (rewrite length_app; simpl; lia).
    apply nth_middle. }
  rewrite Hb.
  destruct (byte_val a <? RuneSelf) eqn:Hascii.
  - intros H. injection H as <- <-.
    exists pre, [a]. split; [exact Hsa|]. split; [reflexivity|].
    split; [discriminate|]. apply Z.ltb_lt in Hascii. split.
    + intros _. apply DecodeRuneInString_ascii_head. exact Hascii.
    + cbn [hd].
      replace (RuneSelf <=? byte_val a) with false
        by (symmetry; apply Z.leb_gt; exact Hascii).
      reflexivity.
  - set (start := Z.max 0 (backUp (Z.to_nat UTFMax) s
                   (Z.max 0 (Z.of_nat (List.length s) - UTFMax))
                   (Z.of_nat (List.length s) - 1 - 1))).
    assert (Hstart : 0 <= start < Z.of_nat (List.length s)).
    { unfold start.
      pose proof (backUp_le (Z.to_nat UTFMax) s
                    (Z.max 0 (Z.of_nat (List.length s) - UTFMax))
                    (Z.of_nat (List.length s) - 1 - 1)).
      lia. }
    destruct (DecodeRuneInString (skipn (Z.to_nat start) s)) as [r' size'] eqn:Hd.
    assert (Hne : skipn (Z.to_nat start) s <> []).
    { intros Hnil. apply (f_equal (@List.length _)) in Hnil.
      rewrite length_skipn in Hnil. simpl in Hnil. lia. }
    pose proof (DecodeRuneInString_width _ Hne) as Hw.
    rewrite Hd in Hw. cbn [snd] in Hw. rewrite length_skipn in Hw.
    destruct (start + size' =? Z.of_nat (List.length s)) eqn:Hend; cbn [negb].
    + intros H. injection H as <- <-. apply Z.eqb_eq in Hend.
      exists (firstn (Z.to_nat start) s), (skipn (Z.to_nat start) s).
      split; [symmetry; apply firstn_skipn|].
      split; [rewrite length_skipn; lia|]. split; [exact Hne|].
      split; [intros _; exact Hd|].
      destruct (skipn (Z.to_nat start) s) as [|c t] eqn:Hsk; [congruence|].
      cbn [hd]. destruct (RuneSelf <=? byte_val c) eqn:Hc.
      * rewrite Hd. reflexivity.
      * apply Z.leb_gt in Hc.
        rewrite (DecodeRuneInString_ascii_head c t Hc) in Hd.
        injection Hd as _ <-. reflexivity.
    + intros H. injection H as <- <-.
      exists pre, [a]. split; [exact Hsa|]. split; [reflexivity|].
      split; [discriminate|]. split.
      * intros Hsp. apply IsSpace_not_error in Hsp. congruence.
      * cbn [hd]. apply Z.ltb_ge in Hascii.
        replace (RuneSelf <=? byte_val a) with true
          by (symmetry; apply Z.leb_le; exact Hascii).
        pose proof (DecodeRuneInString_width [a] ltac:(discriminate)) as Hw1.
        cbn [List.length] in Hw1. lia.
Qed.

Lemma lastIndexFunc_loop_inv (t : bytes) (fuel : nat) :
  forall i,
    0 <= i <= Z.of_nat (List.length t) ->
    (Z.to_nat i <= fuel)%nat ->
    spaces_from t i ->
    let res := lastIndexFunc_loop fuel t unicode.IsSpace false i in
    (res = -1 /\ spaces_from t 0) \/
    (0 <= res /\
     exists i1,
       spaces_from t i1 /\ res < i1 <= Z.of_nat (List.length t) /\
       (if RuneSelf <=? byte_at t res
        then snd (DecodeRuneInString (skipn (Z.to_nat res) t)) else 1)
       = i1 - res).
Proof.
  induction fuel as [|k IH]; intros i Hi Hfuel Hinv res.
  - left. split; [reflexivity|].
    replace i with 0 in Hinv by lia. exact Hinv.
  - subst res. cbn [lastIndexFunc_loop].
    destruct (0 <? i) eqn:Hpos.
    2:{ left. split; [reflexivity|]. apply Z.ltb_ge in Hpos.
        replace i with 0 in Hinv by lia. exact Hinv. }
    apply Z.ltb_lt in Hpos.
    assert (Hlen : List.length (firstn (Z.to_nat i) t) = Z.to_nat i)
      by (rewrite length_firstn; lia).
    assert (Hne : firstn (Z.to_nat i) t <> []).
    { intros Hnil. rewrite Hnil in Hlen. simpl in Hlen. lia. }
    destruct (DecodeLastRuneInString (firstn (Z.to_nat i) t)) as [r size] eqn:Hd.
    destruct (DecodeLastRuneInString_tail _ _ _ Hne Hd)
      as (pre & enc & Hsplit & Henc & Hencne & Hsp & Hadj).
    assert (Hpre : List.length pre = Z.to_nat (i - size)).
    { apply (f_equal (@List.length _)) in Hsplit.
      rewrite Hlen, length_app in Hsplit. lia. }
    assert (Hsize : 1 <= size <= i).
    { destruct enc; [congruence|]. cbn [List.length] in Henc.
      apply (f_equal (@List.length _)) in Hsplit.
      rewrite Hlen, length_app in Hsplit. cbn [List.length] in Hsplit. lia. }
    assert (Hskip : skipn (Z.to_nat (i - size)) t
                    = enc ++ skipn (Z.to_nat i) t).
    { rewrite <- (firstn_skipn (Z.to_nat i) t) at 1.
      rewrite Hsplit, <- app_assoc, <- Hpre.
      rewrite skipn_app, skipn_all, Nat.sub_diag. reflexivity. }
    destruct Hinv as [Hall Hcont].
    destruct (unicode.IsSpace r) eqn:Hr; cbn [Bool.eqb].
    + apply (IH (i - size)); [lia|lia|].
      specialize (Hsp eq_refl). split.
      * rewrite Hskip, chunks_app by exact Hcont.
        rewrite forallb_app, Hall, andb_true_r.
        rewrite (chunks_cons _ _ _ Hencne Hsp).
        cbn [forallb fst]. rewrite Hr. cbn [andb].
        rewrite <- Henc, Nat2Z.id, skipn_all. reflexivity.
      * rewrite Hskip. intros Hc.
        assert (Hc' : continuation enc)
          by (destruct enc; [congruence|exact Hc]).
        apply continuation_error in Hc'. rewrite Hsp in Hc'. cbn [fst] in Hc'.
        apply IsSpace_not_error in Hr. congruence.
    + right. split; [lia|]. exists i. split; [split; assumption|].
      split; [lia|].
      assert (Hbyte : byte_at t (i - size) = byte_val (hd zero enc)).
      { unfold byte_at. f_equal.
        rewrite <- (firstn_skipn (Z.to_nat (i - size)) t), Hskip.
        rewrite app_nth2; rewrite length_firstn; [|lia].
        replace (Z.to_nat (i - size) -
                 Nat.min (Z.to_nat (i - size)) (List.length t))%nat
          with 0%nat by lia.
        destruct enc; [congruence|reflexivity]. }
      rewrite Hbyte, Hskip.
      rewrite DecodeRuneInString_boundary by assumption.
      rewrite Hadj. lia.
Qed.

Lemma TrimRightFunc_split (t : bytes) :
  exists i1,
    0 <= i1 <= Z.of_nat (List.length t) /\
    TrimRightFunc t unicode.IsSpace = firstn (Z.to_nat i1) t /\
    spaces_from t i1.
Proof.
  unfold TrimRightFunc, lastIndexFunc.
  assert (Hinit : spaces_from t (Z.of_nat (List.length t))).
  { unfold spaces_from. rewrite Nat2Z.id, skipn_all. split; [reflexivity|].
    intros []. }
  destruct (lastIndexFunc_loop_inv t (List.length t) (Z.of_nat (List.length t))
              ltac:(lia) ltac:(lia) Hinit)
    as [[Hres H0]|(Hres & i1 & Hi1 & Hb & Hadj)].
  - rewrite Hres. exists 0. cbn [Z.leb andb]. split; [lia|].
    split; [reflexivity|exact H0].
  - set (res := lastIndexFunc_loop _ _ _ _ _) in *.
    exists i1. split; [lia|]. split; [|exact Hi1].
    replace (0 <=? res) with true by (symmetry; apply Z.leb_le; lia).
    cbn [andb]. f_equal. f_equal.
    destruct (RuneSelf <=? byte_at t res); lia.
Qed.

Lemma Fields_TrimSpace (s : string) :
  Fields (TrimSpace s) = Fields s.
Proof.
  unfold Fields, TrimSpace. rewrite list_ascii_of_string_of_list_ascii.
  f_equal. set (l := list_ascii_of_string s). unfold TrimFunc.
  rewrite !FieldsFunc_chunks.
  destruct (TrimRightFunc_split (TrimLeftFunc l unicode.IsSpace))
    as (i1 & Hi1 & -> & Hall & Hcont).
  rewrite <- (TrimLeftFunc_fields unicode.IsSpace l).
  rewrite <- (firstn_skipn (Z.to_nat i1) (TrimLeftFunc l unicode.IsSpace)) at 2.
  rewrite chunks_app by exact Hcont.
  rewrite fields_chunks_spaces by exact Hall. reflexivity.
Qed.


(** *** The two views agree *)

Lemma chunks_from_concat (fuel : nat) :
  forall s, (List.length s <= fuel)%nat ->
  List.concat (map snd (chunks_from fuel s)) = s.
Proof.
  induction fuel as [|k IH]; intros s Hlen.
  - destruct s; [reflexivity|simpl in Hlen; lia].
  - destruct s as [|c t]; [reflexivity|].
    cbn [chunks_from].
    destruct (DecodeRuneInString (c :: t)) as [r w] eqn:Hd.
    pose proof (DecodeRuneInString_width (c :: t) ltac:(discriminate)) as Hw.
    rewrite Hd in Hw. cbn [snd] in Hw.
    cbn [map List.concat snd]. rewrite IH.
    + apply firstn_skipn.
    + rewrite length_skipn. cbn [List.length] in *. lia.
Qed.

(** The runes of a string account for all of its bytes. *)
Lemma chunks_concat (s : bytes) :
  List.concat (map snd (chunks s)) = s.
Proof.
  apply chunks_from_concat. apply le_n.
Qed.



(** *** The model on small inputs *)

Example DecodeRuneInString_euro :
  DecodeRuneInString ["226"; "130"; "172"; "033"]%char = (0x20AC, 3).
Proof. reflexivity. Qed.

Example DecodeRuneInString_truncated :
  DecodeRuneInString ["226"; "130"]%char = (RuneError, 1).
Proof. reflexivity. Qed.

Example DecodeLastRuneInString_euro :
  DecodeLastRuneInString ["033"; "226"; "130"; "172"]%char = (0x20AC, 3).
Proof. reflexivity. Qed.

Example TrimSpace_ascii :
  TrimSpace ("  ls -l " ++ String "009" (String "010" "")) = "ls -l"%string.
Proof. reflexivity. Qed.

Example TrimSpace_no_break_space :
  TrimSpace (String "194" (String "160" " ")) = ""%string.
Proof. reflexivity. Qed.

Example Fields_two :
  Fields " tcp:1   tcp:2 " = ["tcp:1"; "tcp:2"]%string.
Proof. reflexivity. Qed.

Example Fields_ideographic_space :
  Fields ("a" ++ String "227" (String "128" (String "128" "b")))
  = ["a"; "b"]%string.
Proof. reflexivity. Qed.

Example Split_lines :
  Split ("a" ++ String "010" ("b" ++ String "010" "")) "010"%char
  = ["a"; "b"; ""]%string.
Proof. reflexivity. Qed.

Example Join_args :
  Join ["pm"; "install"; "/data/x.apk"]%string " " = "pm install /data/x.apk"%string.
Proof. reflexivity. Qed.

Example fmt_d_default_mode : fmt_d DefaultFileMode = "436"%string.
Proof. reflexivity. Qed.

Example Unix_of_zero_time : Unix Time_zero = -62135596800.
Proof. reflexivity. Qed.

Example uint32_wraps : uint32 (-1) = 4294967295.
Proof. reflexivity. Qed.

End GoLibrary.

(** ** DeviceFileInfo.IsDir *)

Lemma land_pow2 (m n : Z) :
  0 <= n -> Z.land m (2 ^ n) = if Z.testbit m n then 2 ^ n else 0.
Proof.
  intros Hn. apply Z.bits_inj'. intros k Hk.
  rewrite Z.land_spec, Z.pow2_bits_eqb by assumption.
  destruct (Z.eqb_spec n k) as [->|Hne].
  - destruct (Z.testbit m k) eqn:Hb; simpl.
    + rewrite Z.pow2_bits_eqb, Z.eqb_refl by assumption. reflexivity.
    + rewrite Z.bits_0. reflexivity.
  - rewrite andb_false_r.
    destruct (Z.testbit m n).
    + rewrite Z.pow2_bits_eqb by assumption.
      symmetry. apply Z.eqb_neq. assumption.
    + rewrite Z.bits_0. reflexivity.
Qed.

(** C10. [IsDir] is true exactly when bit 14 of [Mode] (octal 40000) is
    set; so it is also true for the file types 0o60000 (block device) and
    0o140000 (socket), whose type bits (mask 0o170000) differ from those
    of a directory. *)
Theorem IsDir_is_bit_14 :
  (forall info, IsDir info = Z.testbit (Mode info) 14) /\
  Z.shiftl 1 14 = 16384 /\
  (forall n sz t, IsDir (mkDeviceFileInfo n 24576 sz t) = true) /\
  (forall n sz t, IsDir (mkDeviceFileInfo n 49152 sz t) = true) /\
  Z.land 24576 61440 <> 16384 /\
  Z.land 49152 61440 <> 16384.
Proof.
  split; [|repeat split; try reflexivity; vm_compute; discriminate].
  intros info. unfold IsDir.
  change (Z.shiftl 1 14) with (2 ^ 14).
  rewrite land_pow2 by lia.
  destruct (Z.testbit (Mode info) 14); reflexivity.
Qed.

(** ** The shell reader *)

Section ShellReader.

Local Open Scope list_scope.

Lemma pw_Write_open (pw : pipe) (data : list byte) :
  rclosed pw = false ->
  pw_Write pw data = (mkPipe (buf pw ++ data) false (wclosed pw), None).
Proof.
  intros H. unfold pw_Write. rewrite H. reflexivity.
Qed.

(** The loop on a pipe whose read end is open: what it has read, what it
    has written and whether it closed the pipe. *)
Lemma newShellReader_loop_spec (reads : list read_result) :
  forall pw, rclosed pw = false ->
  reads = messages_read reads ++ snd (newShellReader_loop reads pw) /\
  fst (newShellReader_loop reads pw) =
    mkPipe (buf pw ++ combined_output (messages_read reads)) false
           (wclosed pw || existsb ends_stream reads).
Proof.
  induction reads as [|[[msgType data] err] rest IH]; intros pw Hpw.
  - simpl. unfold combined_output. simpl.
    rewrite app_nil_r, orb_false_r. destruct pw; simpl in *. subst.
    split; reflexivity.
  - simpl. destruct err as [e|].
    + simpl. unfold combined_output, pw_Close. simpl.
      rewrite app_nil_r, orb_true_r, Hpw. split; reflexivity.
    + destruct ((msgType =? shellStdout) || (msgType =? shellStderr)) eqn:Hout.
      * assert (Hx : (msgType =? shellExit) = false).
        { destruct (Z.eqb_spec msgType shellExit) as [->|]; [|reflexivity].
          vm_compute in Hout. discriminate. }
        rewrite Hx. simpl.
        destruct (0 <? Z.of_nat (List.length data)) eqn:Hlen.
        -- rewrite pw_Write_open by assumption.
           destruct (IH (mkPipe (buf pw ++ data) false (wclosed pw)) eq_refl)
             as (Hc1 & Hc2).
           split.
           ++ f_equal. exact Hc1.
           ++ rewrite Hc2. unfold combined_output. simpl.
              rewrite Hout. simpl. rewrite app_assoc. reflexivity.
        -- assert (data = []) as ->
             by (destruct data; [reflexivity|discriminate Hlen]).
           destruct (IH pw Hpw) as (Hc1 & Hc2).
           split.
           ++ f_equal. exact Hc1.
           ++ rewrite Hc2. unfold combined_output. simpl.
              rewrite Hout. reflexivity.
      * destruct (msgType =? shellExit) eqn:Hexit.
        -- simpl. unfold combined_output, pw_Close. simpl.
           rewrite Hout. simpl.
           rewrite app_nil_r, orb_true_r, Hpw. split; reflexivity.
        -- assert (Hsame : (if msgType =? shellCloseStdin
                            then newShellReader_loop rest pw
                            else newShellReader_loop rest pw)
                           = newShellReader_loop rest pw)
             by (destruct (msgType =? shellCloseStdin); reflexivity).
           rewrite Hsame.
           destruct (IH pw Hpw) as (Hc1 & Hc2).
           simpl. split.
           ++ f_equal. exact Hc1.
           ++ rewrite Hc2. unfold combined_output. simpl.
              rewrite Hout. reflexivity.
Qed.

Lemma newShellReader_spec (reads : list read_result) :
  newShellReader reads =
    mkPipe (combined_output (messages_read reads)) false
           (existsb ends_stream reads).
Proof.
  unfold newShellReader.
  destruct (newShellReader_loop_spec reads io_Pipe eq_refl) as [_ H].
  rewrite H. reflexivity.
Qed.

Lemma messages_read_app_end (pre : list read_result) (r : read_result)
    (rest : list read_result) :
  ends_stream r = true ->
  messages_read (pre ++ r :: rest) = messages_read (pre ++ [r]).
Proof.
  intros Hr. induction pre as [|p pre IH]; simpl.
  - rewrite Hr. reflexivity.
  - destruct (ends_stream p); [reflexivity|]. f_equal. exact IH.
Qed.

Lemma combined_output_messages_read_exit (pre : list read_result)
    (d1 d2 : list byte) :
  combined_output (messages_read (pre ++ [(shellExit, d1, None)])) =
  combined_output (messages_read (pre ++ [(shellExit, d2, None)])).
Proof.
  induction pre as [|p pre IH]; simpl.
  - reflexivity.
  - destruct (ends_stream p); [reflexivity|].
    unfold combined_output in *. simpl.
    destruct (is_output p); simpl; [f_equal|]; exact IH.
Qed.

(** The goroutine never touches the read end of the pipe. *)
Lemma newShellReader_loop_rclosed (reads : list read_result) :
  forall pw, rclosed (fst (newShellReader_loop reads pw)) = rclosed pw.
Proof.
  induction reads as [|[[msgType data] err] rest IH]; intros pw; [reflexivity|].
  simpl. destruct err as [e|]; [reflexivity|].
  destruct ((msgType =? shellStdout) || (msgType =? shellStderr)).
  - destruct (0 <? Z.of_nat (List.length data)); [|apply IH].
    unfold pw_Write. destruct (rclosed pw) eqn:Hr; simpl; [exact Hr|].
    rewrite IH. reflexivity.
  - destruct (msgType =? shellExit); [reflexivity|].
    destruct (msgType =? shellCloseStdin); apply IH.
Qed.

(** C1. The stream that [newShellReader] produces holds the payloads of
    the stdout and stderr messages it has read, in the order of their
    arrival, and nothing else; the messages it has read are those up to
    the first exit message or failed read, the rest stays unread. *)
Theorem newShellReader_combined_stream :
  (forall reads,
     buf (newShellReader reads) = combined_output (messages_read reads)) /\
  (forall reads,
     reads = messages_read reads ++ snd (newShellReader_loop reads io_Pipe)) /\
  (forall reads,
     existsb ends_stream reads = false ->
     buf (newShellReader reads) = combined_output reads).
Proof.
  split; [|split].
  - intros reads. rewrite newShellReader_spec. reflexivity.
  - intros reads. apply newShellReader_loop_spec. reflexivity.
  - intros reads H. rewrite newShellReader_spec. simpl. f_equal.
    induction reads as [|r rest IH]; simpl in *; [reflexivity|].
    apply orb_false_iff in H. destruct H as [Hr Hrest].
    rewrite Hr. f_equal. apply IH. exact Hrest.
Qed.

(** A run for C1: stdout, closeStdin, stderr, exit and one more frame. *)
Lemma newShellReader_combined_stream_witness :
  let reads := [(shellStdout, [x61; x62], None); (shellCloseStdin, [x7a], None);
                (shellStderr, [x63], None)] in
  existsb ends_stream reads = false /\
  buf (newShellReader reads) = [x61; x62; x63].
Proof.
  split; [reflexivity|].
  exact (proj2 (proj2 newShellReader_combined_stream)
           [(shellStdout, [x61; x62], None); (shellCloseStdin, [x7a], None);
            (shellStderr, [x63], None)] eq_refl).
Defined.

(** C2. The stream ends exactly when a read fails or delivers an exit
    message: the write end is closed then and not before, and the
    goroutine never closes the read end.  The reader sees a plain end of
    stream (no error), and the payload of the exit message has no
    influence on what the reader gets. *)
Theorem newShellReader_end_of_stream :
  (forall reads,
     wclosed (newShellReader reads) = existsb ends_stream reads) /\
  (forall reads pw,
     rclosed (fst (newShellReader_loop reads pw)) = rclosed pw) /\
  (forall reads,
     io_ReadAll (newShellReader reads) =
       if existsb ends_stream reads
       then Some (combined_output (messages_read reads), None)
       else None) /\
  (forall msgType data err,
     ends_stream (msgType, data, err) = true <->
     err <> None \/ msgType = shellExit) /\
  (forall pre d1 d2 rest1 rest2,
     newShellReader (pre ++ (shellExit, d1, None) :: rest1) =
     newShellReader (pre ++ (shellExit, d2, None) :: rest2)).
Proof.
  split; [|split; [|split; [|split]]].
  - intros reads. rewrite newShellReader_spec. reflexivity.
  - intros reads pw. apply newShellReader_loop_rclosed.
  - intros reads. rewrite newShellReader_spec. unfold io_ReadAll. simpl.
    destruct (existsb ends_stream reads); reflexivity.
  - intros msgType data err. simpl. destruct err as [e|].
    + split; [intros _; left; discriminate|reflexivity].
    + split.
      * intros H. right. apply Z.eqb_eq. exact H.
      * intros [H|H]; [congruence|]. apply Z.eqb_eq. exact H.
  - intros pre d1 d2 rest1 rest2. rewrite !newShellReader_spec.
    f_equal.
    + transitivity (combined_output (messages_read (pre ++ [(shellExit, d1, None)]))).
      { f_equal. apply messages_read_app_end. reflexivity. }
      transitivity (combined_output (messages_read (pre ++ [(shellExit, d2, None)]))).
      { apply combined_output_messages_read_exit. }
      f_equal. symmetry. apply messages_read_app_end. reflexivity.
    + rewrite !existsb_app. simpl. rewrite !orb_true_r. reflexivity.
Qed.

(** C5. A closeStdin message is skipped: with it or without it in the
    sequence of reads, the stream holds the same bytes and ends, or stays
    open, in the same way. *)
Theorem newShellReader_ignores_closeStdin :
  forall pre data rest,
    newShellReader (pre ++ (shellCloseStdin, data, None) :: rest) =
    newShellReader (pre ++ rest).
Proof.
  intros pre data rest. unfold newShellReader.
  generalize io_Pipe as pw.
  induction pre as [|[[msgType d] err] pre IH]; intros pw.
  - reflexivity.
  - simpl. destruct err as [e|]; [reflexivity|].
    destruct ((msgType =? shellStdout) || (msgType =? shellStderr)).
    + destruct (0 <? Z.of_nat (List.length d)).
      * destruct (pw_Write pw d) as [pw' [werr|]]; [reflexivity|apply IH].
      * apply IH.
    + destruct (msgType =? shellExit); [reflexivity|].
      destruct (msgType =? shellCloseStdin); apply IH.
Qed.

End ShellReader.
(** ** Shell.Close *)

(** C6. Whatever releasing the socket returns, a second [Close] on a
    [Shell] returns no error, leaves the shell as the first [Close] left
    it and writes no byte to the socket. *)
Theorem Shell_Close_twice :
  forall sock_err1 sock_err2 s,
    let '(err1, s1) := Shell_Close sock_err1 s in
    let '(err2, s2) := Shell_Close sock_err2 s1 in
    err2 = None /\ s2 = s1 /\
    sock_closed (st s1) = true /\
    sent (st s2) = sent (st s).
Proof.
  intros e1 e2 [[c w] r]. unfold Shell_Close, shellTransport_Close.
  destruct c; simpl; repeat split; reflexivity.
Qed.

(** ** The device functions *)

Section DeviceProperties.

Local Open Scope list_scope.

Variable E : env.

Lemma createDeviceTransport_ok (d : Device) (tr tr0 : trace) (tp : transport) :
  createDeviceTransport E d tr = Some ((tp, None), tr0) ->
  tr0 = tr ++ handshake d.
Proof.
  unfold createDeviceTransport, bind, call, ret, handshake, device_address.
  destruct (outcome E tr _) as [e|]; [discriminate|].
  destruct (outcome E (tr ++ _) _) as [e|]; [discriminate|].
  intros H. injection H as _ _ <-.
  rewrite <- !app_assoc. reflexivity.
Qed.

Lemma not_blank_eqb (s : string) :
  s <> ""%string -> (s =? "")%string = false.
Proof.
  intros H. apply String.eqb_neq. exact H.
Qed.

Lemma run_steps_In (steps : list event) :
  forall tr x, In x (snd (run_steps E steps tr)) -> In x tr \/ In x steps.
Proof.
  induction steps as [|s steps IH]; intros tr x; simpl.
  - intros H. left. exact H.
  - destruct (outcome E tr s) as [e|]; simpl.
    + intros H. apply in_app_or in H. destruct H as [H|[H|[]]]; auto.
    + intros H. apply IH in H. destruct H as [H|H]; [|auto].
      apply in_app_or in H. destruct H as [H|[H|[]]]; auto.
Qed.

Lemma RunShellCommandAsync_eq (d : Device) (cmd : string)
    (args : list string) (tp : transport) (tr0 : trace) :
  strings.TrimSpace (shell_cmd cmd args) <> ""%string ->
  createDeviceTransport E d [] = Some ((tp, None), tr0) ->
  RunShellCommandAsync E d cmd args [] =
    match run_steps E (shell_steps cmd args) tr0 with
    | (Some e, tr1) => Some ((None, Some e), tr1 ++ [tp_Close])
    | (None, tr1) =>
      Some ((Some (mkShell (mkShellTransport false [])
                           (newShellReader (shell_msgs E))), None), tr1)
    end.
Proof.
  intros Hcmd Htp.
  unfold RunShellCommandAsync. rewrite (not_blank_eqb _ Hcmd).
  unfold bind at 1. rewrite Htp. cbv beta iota.
  unfold shell_steps, run_steps, tp_Close_, bind, call, ret.
  destruct (outcome E tr0 _) as [e|]; [reflexivity|].
  destruct (outcome E (tr0 ++ _) tp_VerifyResponse) as [e|]; [reflexivity|].
  destruct (outcome E ((tr0 ++ _) ++ _) tp_CreateShellTransport) as [e|];
    reflexivity.
Qed.

(** C7. Once the device transport exists, [RunShellCommandAsync] sends the
    request, verifies the response and creates the shell transport, in
    this order.  If one of the three fails, the transport is closed, as the
    last call, and that error is returned with no shell; if none fails the
    transport is not closed and the shell that owns it is returned. *)
Theorem RunShellCommandAsync_closes_on_error :
  forall d cmd args tp tr0,
    strings.TrimSpace (shell_cmd cmd args) <> ""%string ->
    createDeviceTransport E d [] = Some ((tp, None), tr0) ->
    let steps := [tp_Send ("shell:" ++ shell_cmd cmd args)%string;
                  tp_VerifyResponse; tp_CreateShellTransport] in
    match run_steps E steps tr0 with
    | (Some e, tr1) =>
        RunShellCommandAsync E d cmd args [] =
          Some ((None, Some e), tr1 ++ [tp_Close]) /\
        ~ In tp_Close tr1
    | (None, tr1) =>
        exists sh,
          RunShellCommandAsync E d cmd args [] = Some ((Some sh, None), tr1) /\
          ~ In tp_Close tr1 /\
          sock_closed (st sh) = false
    end.
Proof.
  intros d cmd args tp tr0 Hcmd Htp steps.
  pose proof (createDeviceTransport_ok _ _ _ _ Htp) as Htr0. simpl in Htr0.
  rewrite (RunShellCommandAsync_eq d cmd args tp tr0 Hcmd Htp).
  fold (shell_steps cmd args) in steps. subst steps.
  assert (Hno : ~ In tp_Close (snd (run_steps E (shell_steps cmd args) tr0))).
  { intros H. apply run_steps_In in H. subst tr0.
    unfold handshake, shell_steps in H. simpl in H.
    repeat destruct H as [H|H]; try discriminate; exact H. }
  destruct (run_steps E (shell_steps cmd args) tr0) as [[e|] tr1]; simpl in Hno.
  - split; [reflexivity|exact Hno].
  - eexists. split; [reflexivity|]. split; [exact Hno|reflexivity].
Qed.

(** *** Push *)

Lemma fmt_d_decimal (m : Z) :
  0 <= m ->
  NilEmpty.uint_of_string (fmt_d m) = Some (N.to_uint (Z.to_N m)).
Proof.
  intros Hm. destruct m as [|p|p]; [reflexivity| |lia].
  unfold fmt_d. apply NilEmpty.usu.
Qed.

Lemma mode_head (mode : list Z) :
  nth 0 (if Nat.eqb (List.length mode) 0 then [DefaultFileMode] else mode) 0
  = hd DefaultFileMode mode.
Proof.
  destruct mode; reflexivity.
Qed.

(** C4. Once the sync transport exists, [Push] sends the SEND frame with
    the argument [<remote-path>,<mode>], the mode in decimal digits, then
    streams the source, then sends the DONE frame with
    [uint32(modification.Unix())], then verifies one status, in this order.
    It stops at the first of the four that fails and returns its error
    (nil if none fails), closing both transports on the way out. *)
Theorem Push_protocol_order :
  forall d source remotePath modification mode tp tr0,
    createDeviceTransport E d [] = Some ((tp, None), tr0) ->
    outcome E tr0 tp_CreateSyncTransport = None ->
    let m := hd DefaultFileMode mode in
    let steps :=
      [sync_Send "SEND" (remotePath ++ "," ++ fmt_d m)%string;
       sync_SendStream source;
       sync_SendStatus "DONE" (uint32 (Unix modification));
       sync_VerifyStatus] in
    Push E d source remotePath modification mode [] =
      (let '(err, tr1) := run_steps E steps (tr0 ++ [tp_CreateSyncTransport]) in
       Some (err, tr1 ++ [sync_Close; tp_Close])) /\
    (0 <= m ->
     option_map (fun u => Z.of_N (N.of_uint u))
                (NilEmpty.uint_of_string (fmt_d m)) = Some m).
Proof.
  intros d source remotePath modification mode tp tr0 Htp Hsync m steps.
  split.
  - unfold Push. unfold bind at 1. rewrite Htp. cbv beta iota.
    rewrite mode_head. fold m.
    unfold defer, sync_Close_, tp_Close_, bind, call, ret.
    rewrite Hsync. subst steps. unfold run_steps.
    destruct (outcome E (tr0 ++ _) (sync_Send _ _)) as [e|];
      [rewrite <- !app_assoc; reflexivity|].
    destruct (outcome E ((tr0 ++ _) ++ _) (sync_SendStream _)) as [e|];
      [rewrite <- !app_assoc; reflexivity|].
    destruct (outcome E (((tr0 ++ _) ++ _) ++ _) (sync_SendStatus _ _)) as [e|];
      [rewrite <- !app_assoc; reflexivity|].
    destruct (outcome E ((((tr0 ++ _) ++ _) ++ _) ++ _) sync_VerifyStatus) as [e|];
      rewrite <- !app_assoc; reflexivity.
  - intros Hm. rewrite fmt_d_decimal by assumption. simpl.
    rewrite DecimalN.Unsigned.of_to. f_equal. lia.
Qed.

(** *** List *)

Lemma Time_eqb_eq (a b : Time) : Time_eqb a b = true <-> a = b.
Proof.
  destruct a as [w1 e1 l1], b as [w2 e2 l2]. unfold Time_eqb.
  simpl. rewrite !andb_true_iff, !Z.eqb_eq. split.
  - intros [[-> ->] Hl]. f_equal.
    destruct l1, l2; try discriminate; [|reflexivity].
    apply Nat.eqb_eq in Hl. subst. reflexivity.
  - intros H. injection H as -> -> ->. repeat split.
    destruct l2; [apply Nat.eqb_refl|reflexivity].
Qed.

Lemma DeviceFileInfo_eqb_eq (a b : DeviceFileInfo) :
  DeviceFileInfo_eqb a b = true <-> a = b.
Proof.
  destruct a as [n1 m1 s1 t1], b as [n2 m2 s2 t2]. unfold DeviceFileInfo_eqb.
  simpl. rewrite !andb_true_iff, !Z.eqb_eq, String.eqb_eq, Time_eqb_eq.
  split.
  - intros [[[-> ->] ->] ->]. reflexivity.
  - intros H. injection H as -> -> -> ->. repeat split.
Qed.

Lemma DeviceFileInfo_eqb_neq (a b : DeviceFileInfo) :
  DeviceFileInfo_eqb a b = false <-> a <> b.
Proof.
  rewrite <- DeviceFileInfo_eqb_eq. destruct (DeviceFileInfo_eqb a b).
  - split; [discriminate|]. intros H. exfalso. apply H. reflexivity.
  - split; [discriminate|reflexivity].
Qed.

(** The loop on replies made of entries followed by the sentinel or by a
    failed read. *)
Lemma List_loop_run (entries : list DeviceFileInfo) :
  forall last lasterr rest acc tr,
    Forall (fun e => e <> DeviceFileInfo_zero) entries ->
    lasterr <> None \/ last = DeviceFileInfo_zero ->
    List_loop (map (fun e => (e, None)) entries ++ (last, lasterr) :: rest)
              acc tr =
      Some ((acc ++ entries, lasterr),
            tr ++ repeat sync_ReadDirectoryEntry (S (List.length entries))).
Proof.
  induction entries as [|e entries IH]; intros last lasterr rest acc tr Hnz Hlast.
  - simpl. rewrite app_nil_r. destruct lasterr as [err|]; [reflexivity|].
    destruct Hlast as [H| ->]; [congruence|].
    replace (DeviceFileInfo_eqb DeviceFileInfo_zero DeviceFileInfo_zero)
      with true by (symmetry; apply DeviceFileInfo_eqb_eq; reflexivity).
    reflexivity.
  - inversion Hnz as [|? ? He Hrest]; subst.
    cbn [map app List_loop].
    apply DeviceFileInfo_eqb_neq in He. rewrite He.
    rewrite (IH last lasterr rest (acc ++ [e]) _ Hrest Hlast).
    rewrite <- !app_assoc. reflexivity.
Qed.

(** What the loop returns never holds the sentinel, whatever the replies. *)
Lemma List_loop_no_sentinel (replies : list (DeviceFileInfo * option error)) :
  forall acc tr res err tr',
    List_loop replies acc tr = Some ((res, err), tr') ->
    Forall (fun e => e <> DeviceFileInfo_zero) acc ->
    Forall (fun e => e <> DeviceFileInfo_zero) res.
Proof.
  induction replies as [|[entry e] replies IH]; intros acc tr res err tr' H Hacc.
  - discriminate H.
  - simpl in H. destruct e as [e|].
    + injection H as <- _ _. exact Hacc.
    + destruct (DeviceFileInfo_eqb entry DeviceFileInfo_zero) eqn:Hz.
      * injection H as <- _ _. exact Hacc.
      * apply IH in H; [exact H|].
        apply Forall_app. split; [exact Hacc|].
        constructor; [|constructor]. apply DeviceFileInfo_eqb_neq. exact Hz.
Qed.

Lemma List_eq (d : Device) (remotePath : string) (tp : transport)
    (tr0 : trace) :
  createDeviceTransport E d [] = Some ((tp, None), tr0) ->
  outcome E tr0 tp_CreateSyncTransport = None ->
  outcome E (tr0 ++ [tp_CreateSyncTransport]) (sync_Send "LIST" remotePath)
    = None ->
  List_ E d remotePath [] =
    match List_loop (dir_entries E) []
            (tr0 ++ [tp_CreateSyncTransport; sync_Send "LIST" remotePath]) with
    | Some ((res, err), tr1) =>
        Some ((Some res, err), tr1 ++ [sync_Close; tp_Close])
    | None => None
    end.
Proof.
  intros Htp Hsync Hsend.
  unfold List_. unfold bind at 1. rewrite Htp. cbv beta iota.
  unfold defer, sync_Close_, tp_Close_, bind, call, ret.
  rewrite Hsync, Hsend. rewrite <- !app_assoc. simpl.
  destruct (List_loop _ _ _) as [[[res err] tr1]|]; [|reflexivity].
  rewrite <- !app_assoc. reflexivity.
Qed.

Lemma List_no_sentinel (d : Device) (remotePath : string)
    (res : list DeviceFileInfo) (err : option error) (tr : trace) :
  List_ E d remotePath [] = Some ((Some res, err), tr) ->
  Forall (fun e => e <> DeviceFileInfo_zero) res.
Proof.
  unfold List_. unfold bind at 1.
  destruct (createDeviceTransport E d []) as [[[tp e] tr0]|]; [|discriminate].
  destruct e as [e|]; [discriminate|].
  unfold defer, sync_Close_, tp_Close_, bind, call, ret.
  destruct (outcome E tr0 tp_CreateSyncTransport) as [e|]; [discriminate|].
  destruct (outcome E (tr0 ++ _) (sync_Send _ _)) as [e|]; [discriminate|].
  destruct (List_loop _ _ _) as [[[res' err'] tr1]|] eqn:Hloop; [|discriminate].
  intros H. injection H as <- _ _.
  apply (List_loop_no_sentinel _ _ _ _ _ _ Hloop). constructor.
Qed.

(** C3. With the sync transport open and the LIST request sent, [List]
    reads directory entries and appends them until it reads the zero
    entry or a read fails.  It returns exactly the entries before that
    point, with the error of the failed read or nil after the sentinel;
    when the first reply is the sentinel the result is the empty, non-nil
    slice and no error.  And whatever the replies are, a slice that [List]
    returns does not hold the sentinel. *)
Theorem List_stops_at_sentinel :
  forall d remotePath,
    (forall res err tr,
       List_ E d remotePath [] = Some ((Some res, err), tr) ->
       ~ In DeviceFileInfo_zero res) /\
    (forall tp tr0 entries last lasterr rest,
       createDeviceTransport E d [] = Some ((tp, None), tr0) ->
       outcome E tr0 tp_CreateSyncTransport = None ->
       outcome E (tr0 ++ [tp_CreateSyncTransport])
               (sync_Send "LIST" remotePath) = None ->
       dir_entries E =
         map (fun e => (e, None)) entries ++ (last, lasterr) :: rest ->
       Forall (fun e => e <> DeviceFileInfo_zero) entries ->
       lasterr <> None \/ last = DeviceFileInfo_zero ->
       List_ E d remotePath [] =
         Some ((Some entries, lasterr),
               tr0 ++ [tp_CreateSyncTransport; sync_Send "LIST" remotePath] ++
               repeat sync_ReadDirectoryEntry (S (List.length entries)) ++
               [sync_Close; tp_Close]) /\
       (entries = [] -> lasterr = None ->
        exists tr, List_ E d remotePath [] = Some ((Some [], None), tr))).
Proof.
  intros d remotePath. split.
  - intros res err tr H Hin. apply List_no_sentinel in H.
    rewrite Forall_forall in H. apply (H _ Hin). reflexivity.
  - intros tp tr0 entries last lasterr rest Htp Hsync Hsend Hdir Hnz Hlast.
    assert (Heq : List_ E d remotePath [] =
      Some ((Some entries, lasterr),
            tr0 ++ [tp_CreateSyncTransport; sync_Send "LIST" remotePath] ++
            repeat sync_ReadDirectoryEntry (S (List.length entries)) ++
            [sync_Close; tp_Close])).
    { rewrite (List_eq d remotePath tp tr0 Htp Hsync Hsend), Hdir.
      rewrite (List_loop_run entries last lasterr rest [] _ Hnz Hlast).
      rewrite <- !app_assoc. reflexivity. }
    split; [exact Heq|].
    intros -> ->. eexists. exact Heq.
Qed.

(** *** The empty command *)

Lemma shell_cmd_Join (cmd : string) (args : list string) :
  shell_cmd cmd args = strings.Join (cmd :: args) " ".
Proof.
  unfold shell_cmd, strings.Join. destruct args; reflexivity.
Qed.

Lemma createDeviceTransport_dials (d : Device) :
  exists res tr,
    createDeviceTransport E d [] = Some (res, newTransport (device_address d) :: tr).
Proof.
  unfold createDeviceTransport, bind, call, ret. fold (device_address d).
  cbn [app].
  destruct (outcome E [] _) as [e|]; [eexists; eexists; reflexivity|].
  destruct (outcome E [_] (tp_Send _)) as [e|]; eexists; eexists; reflexivity.
Qed.

Lemma executeCommand_dials (d : Device) (command : string) (o : list bool) :
  exists res tr,
    executeCommand E d command o [] = Some (res, newTransport (device_address d) :: tr).
Proof.
  unfold executeCommand. unfold bind at 1.
  destruct (createDeviceTransport_dials d) as ([tp err] & tr & ->).
  destruct err as [e|]; [eexists; eexists; reflexivity|].
  unfold defer, tp_Close_, ReadBytesAll, bind, call, ret. cbn [app].
  destruct (outcome E _ (tp_Send command)) as [e|];
    [eexists; eexists; reflexivity|].
  destruct (outcome E _ tp_VerifyResponse) as [e|];
    [eexists; eexists; reflexivity|].
  destruct (nth 0 _ false); eexists; eexists; reflexivity.
Qed.

Lemma RunShellCommandAsync_dials (d : Device) (cmd : string)
    (args : list string) :
  strings.TrimSpace (shell_cmd cmd args) <> ""%string ->
  exists res tr,
    RunShellCommandAsync E d cmd args [] =
      Some (res, newTransport (device_address d) :: tr).
Proof.
  intros Hcmd. unfold RunShellCommandAsync. rewrite (not_blank_eqb _ Hcmd).
  unfold bind at 1.
  destruct (createDeviceTransport_dials d) as ([tp err] & tr & ->).
  destruct err as [e|]; [eexists; eexists; reflexivity|].
  unfold tp_Close_, bind, call, ret. cbn [app].
  destruct (outcome E _ (tp_Send _)) as [e|];
    [eexists; eexists; reflexivity|].
  destruct (outcome E _ tp_VerifyResponse) as [e|];
    [eexists; eexists; reflexivity|].
  destruct (outcome E _ tp_CreateShellTransport) as [e|];
    eexists; eexists; reflexivity.
Qed.

(** C9. Let the command line be [cmd] and [args] joined by single spaces.
    If it is empty or white space only, each of the three functions
    returns the error "adb shell: command cannot be empty" and makes no
    call at all; otherwise each of them starts by dialling the server. *)
Theorem RunShellCommand_empty_command :
  forall d cmd args,
    Error err_empty_command = "adb shell: command cannot be empty"%string /\
    if only_whitespace (strings.Join (cmd :: args) " ") then
      RunShellCommandWithBytes E d cmd args [] =
        Some (([], Some err_empty_command), []) /\
      RunShellCommand E d cmd args [] =
        Some ((""%string, Some err_empty_command), []) /\
      RunShellCommandAsync E d cmd args [] =
        Some ((None, Some err_empty_command), [])
    else
      (exists res tr,
         RunShellCommandWithBytes E d cmd args [] =
           Some (res, newTransport (device_address d) :: tr)) /\
      (exists res tr,
         RunShellCommand E d cmd args [] =
           Some (res, newTransport (device_address d) :: tr)) /\
      (exists res tr,
         RunShellCommandAsync E d cmd args [] =
           Some (res, newTransport (device_address d) :: tr)).
Proof.
  intros d cmd args. split; [reflexivity|].
  rewrite <- shell_cmd_Join.
  destruct (only_whitespace (shell_cmd cmd args)) eqn:Hws.
  - apply TrimSpace_empty in Hws.
    unfold RunShellCommand, RunShellCommandWithBytes, RunShellCommandAsync.
    rewrite Hws. repeat split; reflexivity.
  - assert (Hcmd : strings.TrimSpace (shell_cmd cmd args) <> ""%string).
    { intros H. apply TrimSpace_empty in H. congruence. }
    assert (Hbytes : exists res tr,
              RunShellCommandWithBytes E d cmd args [] =
                Some (res, newTransport (device_address d) :: tr)).
    { unfold RunShellCommandWithBytes. rewrite (not_blank_eqb _ Hcmd).
      unfold bind.
      destruct (executeCommand_dials d ("shell:" ++ shell_cmd cmd args) [])
        as ([raw err] & tr & ->).
      eexists; eexists; reflexivity. }
    split; [exact Hbytes|]. split.
    + unfold RunShellCommand, bind.
      destruct Hbytes as ([raw err] & tr & ->).
      eexists; eexists; reflexivity.
    + apply RunShellCommandAsync_dials. exact Hcmd.
Qed.

(** *** ReverseList *)

Lemma ReverseList_loop_spec (lines : list string) :
  forall acc,
    ReverseList_loop lines acc = acc ++ flat_map forward_of_line lines.
Proof.
  induction lines as [|l lines IH]; intros acc; cbn [ReverseList_loop flat_map].
  - symmetry. apply app_nil_r.
  - unfold forward_of_line at 1. rewrite <- (Fields_TrimSpace l).
    destruct (String.eqb_spec (strings.TrimSpace l) "") as [Hl|Hl].
    + rewrite Hl. rewrite IH. reflexivity.
    + destruct (strings.Fields (strings.TrimSpace l)) as [|f1 [|f2 [|f3 fs]]];
        cbn [List.length Nat.ltb Nat.leb Nat.eqb nth];
        rewrite IH; rewrite <- ?app_assoc; reflexivity.
Qed.

(** C8. [ReverseList] turns the answer to [reverse:list-forward] into
    forwards line by line, in the order of the lines.  A line that is empty
    once trimmed, or that has fewer than two fields, gives nothing; a line
    of two fields gives the forward of serial "host"; a line of three or
    more fields gives the forward made of its first three fields.  When
    the command fails, its error is returned with the nil slice. *)
Theorem ReverseList_parses_lines :
  (forall d raw tr,
     executeCommand E d "reverse:list-forward" [] [] = Some ((raw, None), tr) ->
     ReverseList E d [] =
       Some ((Some (flat_map forward_of_line
                      (strings.Split (string_of_list_byte raw) "010"%char)),
              None), tr)) /\
  (forall d raw e tr,
     executeCommand E d "reverse:list-forward" [] [] = Some ((raw, Some e), tr) ->
     ReverseList E d [] = Some ((None, Some e), tr)) /\
  (forall line,
     forward_of_line line =
       match strings.Fields line with
       | [] => []
       | [_] => []
       | [field1; field2] => [mkDeviceForward "host" field1 field2]
       | field1 :: field2 :: field3 :: _ =>
           [mkDeviceForward field1 field2 field3]
       end) /\
  (forall line,
     strings.TrimSpace line = ""%string -> forward_of_line line = []).
Proof.
  split; [|split; [|split]].
  - intros d raw tr H. unfold ReverseList, bind. rewrite H. unfold ret.
    rewrite ReverseList_loop_spec. reflexivity.
  - intros d raw e tr H. unfold ReverseList, bind. rewrite H. reflexivity.
  - intros line. reflexivity.
  - intros line H. unfold forward_of_line.
    rewrite <- Fields_TrimSpace, H. reflexivity.
Qed.

End DeviceProperties.

(** ** Runs on concrete environments *)

Section Runs.

Local Open Scope list_scope.

(** C7 on a run where the second [VerifyResponse] fails. *)
Lemma RunShellCommandAsync_closes_on_error_witness :
  strings.TrimSpace (shell_cmd "logcat" []) <> ""%string /\
  createDeviceTransport (env_fail_at 4) dev0 [] =
    Some ((mkTransport "localhost:5037", None), handshake dev0) /\
  RunShellCommandAsync (env_fail_at 4) dev0 "logcat" [] [] =
    Some ((None, Some err_refused),
          handshake dev0 ++
          [tp_Send "shell:logcat"; tp_VerifyResponse; tp_Close]) /\
  ~ In tp_Close (handshake dev0 ++ [tp_Send "shell:logcat"; tp_VerifyResponse]).
Proof.
  assert (H1 : strings.TrimSpace (shell_cmd "logcat" []) <> ""%string)
    by (vm_compute; discriminate).
  assert (H2 : createDeviceTransport (env_fail_at 4) dev0 [] =
               Some ((mkTransport "localhost:5037", None), handshake dev0))
    by reflexivity.
  split; [exact H1|]. split; [exact H2|].
  exact (RunShellCommandAsync_closes_on_error (env_fail_at 4) dev0 "logcat" []
           (mkTransport "localhost:5037") (handshake dev0) H1 H2).
Defined.

(** C4 on a run where every call succeeds, with the default mode. *)
Lemma Push_protocol_order_witness :
  createDeviceTransport env_quiet dev0 [] =
    Some ((mkTransport "localhost:5037", None), handshake dev0) /\
  outcome env_quiet (handshake dev0) tp_CreateSyncTransport = None /\
  Push env_quiet dev0 [x68; x69] "/sdcard/f"
       (mkTime 0 63835596800 None) [] [] =
    Some (None,
          handshake dev0 ++
          [tp_CreateSyncTransport;
           sync_Send "SEND" "/sdcard/f,436";
           sync_SendStream [x68; x69];
           sync_SendStatus "DONE" 1700000000;
           sync_VerifyStatus;
           sync_Close; tp_Close]).
Proof.
  assert (H1 : createDeviceTransport env_quiet dev0 [] =
               Some ((mkTransport "localhost:5037", None), handshake dev0))
    by reflexivity.
  assert (H2 : outcome env_quiet (handshake dev0) tp_CreateSyncTransport = None)
    by reflexivity.
  split; [exact H1|]. split; [exact H2|].
  exact (proj1 (Push_protocol_order env_quiet dev0 [x68; x69] "/sdcard/f"
                  (mkTime 0 63835596800 None) []
                  (mkTransport "localhost:5037") (handshake dev0) H1 H2)).
Defined.

(** C3 on a directory with one file, and on an empty directory. *)
Lemma List_stops_at_sentinel_witness :
  List_ env_listing dev0 "/etc" [] =
    Some ((Some [entry_hosts], None),
          handshake dev0 ++
          [tp_CreateSyncTransport; sync_Send "LIST" "/etc";
           sync_ReadDirectoryEntry; sync_ReadDirectoryEntry;
           sync_Close; tp_Close]) /\
  exists tr, List_ env_empty_dir dev0 "/mnt" [] = Some ((Some [], None), tr).
Proof.
  split.
  - refine (proj1 (proj2 (List_stops_at_sentinel env_listing dev0 "/etc")
                     (mkTransport "localhost:5037") (handshake dev0)
                     [entry_hosts] DeviceFileInfo_zero None []
                     eq_refl eq_refl eq_refl eq_refl _ _)).
    + constructor; [discriminate|constructor].
    + right. reflexivity.
  - refine (proj2 (proj2 (List_stops_at_sentinel env_empty_dir dev0 "/mnt")
                     (mkTransport "localhost:5037") (handshake dev0)
                     [] DeviceFileInfo_zero None []
                     eq_refl eq_refl eq_refl eq_refl _ _) eq_refl eq_refl).
    + constructor.
    + right. reflexivity.
Defined.

(** C8 on an answer of four lines: two fields, blank, four fields, one
    field. *)
Lemma ReverseList_parses_lines_witness :
  executeCommand env_reverse dev0 "reverse:list-forward" [] [] =
    Some ((list_byte_of_string reverse_answer, None),
          handshake dev0 ++
          [tp_Send "reverse:list-forward"; tp_VerifyResponse;
           tp_ReadBytesAll; tp_Close]) /\
  ReverseList env_reverse dev0 [] =
    Some ((Some [mkDeviceForward "host" "tcp:1" "tcp:2";
                 mkDeviceForward "UsbFfs" "tcp:3" "tcp:4"], None),
          handshake dev0 ++
          [tp_Send "reverse:list-forward"; tp_VerifyResponse;
           tp_ReadBytesAll; tp_Close]).
Proof.
  assert (H : executeCommand env_reverse dev0 "reverse:list-forward" [] [] =
    Some ((list_byte_of_string reverse_answer, None),
          handshake dev0 ++
          [tp_Send "reverse:list-forward"; tp_VerifyResponse;
           tp_ReadBytesAll; tp_Close])) by reflexivity.
  split; [exact H|].
  exact (proj1 (ReverseList_parses_lines env_reverse) dev0 _ _ H).
Defined.

End Runs.

(** * Further properties of device.go and shell.go *)

Section PureFunctions.

Local Open Scope list_scope.

(** ** deviceStateConv *)

(** X1. [deviceStateConv] knows three answers of the server: "device" is
    online, "offline" is offline, the empty answer is disconnected; every
    other string, the names of the states themselves included, is
    unknown. *)
Theorem deviceStateConv_table :
  forall k,
    (deviceStateConv k = StateOnline <-> k = "device"%string) /\
    (deviceStateConv k = StateOffline <-> k = "offline"%string) /\
    (deviceStateConv k = StateDisconnected <-> k = ""%string) /\
    (deviceStateConv k = StateUnknown <->
       k <> ""%string /\ k <> "offline"%string /\ k <> "device"%string) /\
    deviceStateConv StateOnline = StateUnknown /\
    deviceStateConv StateDisconnected = StateUnknown.
Proof.
  intros k. unfold deviceStateConv, deviceStateStrings. cbn [map_lookup].
  destruct (String.eqb_spec "" k) as [<-|H1].
  { repeat split; try discriminate; try reflexivity; intros H; try discriminate H.
    destruct H as [H _]. congruence. }
  destruct (String.eqb_spec "offline" k) as [<-|H2].
  { repeat split; try discriminate; try reflexivity; intros H; try discriminate H.
    destruct H as (_ & H & _). congruence. }
  destruct (String.eqb_spec "device" k) as [<-|H3].
  { repeat split; try discriminate; try reflexivity; intros H; try discriminate H.
    destruct H as (_ & _ & H). congruence. }
  repeat split; try reflexivity; try congruence; intros H; try discriminate H.
Qed.

(** ** TcpPort and LocalAbstractPort *)

Lemma string_of_uint_inj (d1 d2 : Decimal.uint) :
  NilEmpty.string_of_uint d1 = NilEmpty.string_of_uint d2 -> d1 = d2.
Proof.
  intros H. apply (f_equal NilEmpty.uint_of_string) in H.
  rewrite !NilEmpty.usu in H. congruence.
Qed.

Lemma Pos_to_uint_inj (p q : positive) :
  Pos.to_uint p = Pos.to_uint q -> p = q.
Proof.
  intros H. apply (f_equal Pos.of_uint) in H.
  rewrite !DecimalPos.Unsigned.of_to in H. congruence.
Qed.

Lemma string_of_uint_no_sign (d : Decimal.uint) (s : string) :
  NilEmpty.string_of_uint d <> String "-" s.
Proof.
  destruct d; simpl; discriminate.
Qed.

Lemma Pos_to_uint_not_zero (p : positive) :
  Pos.to_uint p <> Decimal.D0 Decimal.Nil.
Proof.
  intros H. apply (f_equal Pos.of_uint) in H.
  rewrite DecimalPos.Unsigned.of_to in H. discriminate H.
Qed.

(** [%d] writes different numbers differently. *)
Lemma fmt_d_inj (a b : Z) : fmt_d a = fmt_d b -> a = b.
Proof.
  destruct a as [|p|p], b as [|q|q]; unfold fmt_d; intros H;
    try reflexivity.
  - change "0"%string with (NilEmpty.string_of_uint (Decimal.D0 Decimal.Nil)) in H.
    apply string_of_uint_inj in H. symmetry in H.
    apply Pos_to_uint_not_zero in H. destruct H.
  - discriminate H.
  - change "0"%string with (NilEmpty.string_of_uint (Decimal.D0 Decimal.Nil)) in H.
    apply string_of_uint_inj in H. apply Pos_to_uint_not_zero in H. destruct H.
  - apply string_of_uint_inj, Pos_to_uint_inj in H. congruence.
  - apply string_of_uint_no_sign in H. destruct H.
  - discriminate H.
  - symmetry in H. apply string_of_uint_no_sign in H. destruct H.
  - injection H as H. apply string_of_uint_inj, Pos_to_uint_inj in H. congruence.
Qed.

(** X2. Two ports give the same [tcp:] endpoint only if they are equal,
    two paths the same [localabstract:] endpoint only if they are equal,
    and a [tcp:] endpoint is never a [localabstract:] one. *)
Theorem Port_endpoints_distinct :
  (forall p q, (TcpPort p =? TcpPort q)%string = (p =? q)) /\
  (forall a b,
     (LocalAbstractPort a =? LocalAbstractPort b)%string = (a =? b)%string) /\
  (forall p a, (TcpPort p =? LocalAbstractPort a)%string = false).
Proof.
  split; [|split].
  - intros p q. unfold TcpPort.
    destruct (Z.eqb_spec p q) as [->|Hne].
    + apply String.eqb_refl.
    + apply String.eqb_neq. intros H. simpl in H.
      injection H as H. apply fmt_d_inj in H. contradiction.
  - intros a b. unfold LocalAbstractPort. simpl.
    destruct (String.eqb_spec a b) as [->|Hne]; reflexivity.
  - intros p a. reflexivity.
Qed.

(** ** Attributes *)

(** [IsUsb] fails exactly when the device has no [usb] attribute; when
    it has one, the answer says whether its value is non-empty.  An
    attribute that is present with the empty value is not an error for
    [Usb] either. *)
Theorem IsUsb_answers :
  forall d,
    match map_lookup (attrs d) "usb" with
    | None =>
        IsUsb d = (false, Some (errors_New "does not have attribute: usb")) /\
        Usb d = (""%string, Some (errors_New "does not have attribute: usb"))
    | Some v =>
        IsUsb d = (negb (v =? "")%string, None) /\ Usb d = (v, None)
    end.
Proof.
  intros d. unfold IsUsb, Usb, HasAttribute, attr.
  destruct (map_lookup (attrs d) "usb"); split; reflexivity.
Qed.

(** ** ForwardList *)

Lemma ForwardList_loop_filter (d : Device) (forwardList : list DeviceForward) :
  forall acc,
    ForwardList_loop d forwardList acc =
    acc ++ filter (fun f => (Serial f =? serial d)%string) forwardList.
Proof.
  induction forwardList as [|f rest IH]; intros acc; simpl.
  - symmetry. apply app_nil_r.
  - destruct (Serial f =? serial d)%string; rewrite IH.
    + rewrite <- app_assoc. reflexivity.
    + reflexivity.
Qed.

(** X3. [ForwardList] keeps, in their order, exactly the forwards of the
    server's list whose serial is the device's; the result is a non-nil
    slice even when none is kept.  When the server's list cannot be
    obtained the error is returned with the nil slice. *)
Theorem ForwardList_of_device :
  forall client_ForwardList d,
    match client_ForwardList (adbClient d) with
    | (forwardList, None) =>
        ForwardList client_ForwardList d =
          (Some (filter (fun f => (Serial f =? serial d)%string) forwardList),
           None) /\
        Forall (fun f => Serial f = serial d)
               (filter (fun f => (Serial f =? serial d)%string) forwardList)
    | (_, Some e) => ForwardList client_ForwardList d = (None, Some e)
    end.
Proof.
  intros fl d. unfold ForwardList.
  destruct (fl (adbClient d)) as [forwardList [e|]]; [reflexivity|].
  split.
  - rewrite ForwardList_loop_filter. reflexivity.
  - apply Forall_forall. intros f Hf. apply filter_In in Hf.
    destruct Hf as [_ Hf]. apply String.eqb_eq. exact Hf.
Qed.

End PureFunctions.

Section MoreDeviceProperties.

Local Open Scope list_scope.

Variable E : env.

(** ** A handshake that fails *)

Lemma createDeviceTransport_failed (d : Device) (tp : transport)
    (e : error) (tr : trace) :
  createDeviceTransport E d [] = Some ((tp, Some e), tr) ->
  exists k, (1 <= k <= 3)%nat /\ tr = firstn k (handshake d).
Proof.
  unfold createDeviceTransport, bind, call, ret, handshake.
  fold (device_address d). cbn [app].
  destruct (outcome E [] _) as [e1|].
  { intros H. injection H as _ _ <-. exists 1%nat. split; [lia|reflexivity]. }
  destruct (outcome E [_] (tp_Send _)) as [e2|].
  { intros H. injection H as _ _ <-. exists 2%nat. split; [lia|reflexivity]. }
  intros H. injection H as _ _ <-. exists 3%nat. split; [lia|reflexivity].
Qed.

Lemma executeCommand_after_failed_handshake (d : Device) (tp : transport)
    (e : error) (tr : trace) (command : string) (o : list bool) :
  createDeviceTransport E d [] = Some ((tp, Some e), tr) ->
  executeCommand E d command o [] = Some (([], Some e), tr).
Proof.
  intros H. unfold executeCommand. unfold bind at 1. rewrite H. reflexivity.
Qed.

(** X4. When [createDeviceTransport] fails, it has made between one and
    three calls of the handshake and has not closed the transport, also
    when dialling had succeeded; [executeCommand], [List], [Push] and
    [RunShellCommandAsync] then return that error at once, without any
    further call. *)
Theorem handshake_failure_returns_at_once :
  forall d tp e tr,
    createDeviceTransport E d [] = Some ((tp, Some e), tr) ->
    (exists k, (1 <= k <= 3)%nat /\ tr = firstn k (handshake d)) /\
    ~ In tp_Close tr /\
    (forall command o,
       executeCommand E d command o [] = Some (([], Some e), tr)) /\
    (forall remotePath,
       List_ E d remotePath [] = Some ((None, Some e), tr)) /\
    (forall source remotePath modification mode,
       Push E d source remotePath modification mode [] = Some (Some e, tr)) /\
    (forall cmd args,
       strings.TrimSpace (shell_cmd cmd args) <> ""%string ->
       RunShellCommandAsync E d cmd args [] = Some ((None, Some e), tr)).
Proof.
  intros d tp e tr H.
  pose proof (createDeviceTransport_failed d tp e tr H) as Hk.
  split; [exact Hk|]. split.
  - destruct Hk as (k & Hk & ->). intros Hin.
    unfold handshake in Hin.
    destruct k as [|[|[|[|k]]]]; try lia; simpl in Hin;
      repeat destruct Hin as [Hin|Hin]; try discriminate; exact Hin.
  - split; [|split; [|split]].
    + intros command o.
      apply (executeCommand_after_failed_handshake d tp e tr command o H).
    + intros remotePath. unfold List_. unfold bind at 1. rewrite H. reflexivity.
    + intros source remotePath modification mode.
      unfold Push. unfold bind at 1. rewrite H. reflexivity.
    + intros cmd args Hcmd. unfold RunShellCommandAsync.
      rewrite (not_blank_eqb _ Hcmd). unfold bind at 1. rewrite H. reflexivity.
Qed.

(** ** executeCommand *)

Lemma executeCommand_eq (d : Device) (command : string) (o : list bool)
    (tp : transport) (tr0 : trace) :
  createDeviceTransport E d [] = Some ((tp, None), tr0) ->
  executeCommand E d command o [] =
    match run_steps E [tp_Send command; tp_VerifyResponse] tr0 with
    | (Some e, tr1) => Some (([], Some e), tr1 ++ [tp_Close])
    | (None, tr1) =>
      if nth 0 o false then Some (([], None), tr1 ++ [tp_Close])
      else Some ((read_all E tr1, outcome E tr1 tp_ReadBytesAll),
                 tr1 ++ [tp_ReadBytesAll; tp_Close])
    end.
Proof.
  intros Htp. unfold executeCommand. unfold bind at 1. rewrite Htp.
  cbv beta iota.
  unfold defer, tp_Close_, ReadBytesAll, run_steps, bind, call, ret.
  destruct (outcome E tr0 (tp_Send command)) as [e|]; [reflexivity|].
  destruct (outcome E (tr0 ++ _) tp_VerifyResponse) as [e|]; [reflexivity|].
  assert (Ho : nth 0 (if Nat.eqb (List.length o) 0 then [false] else o) false
               = nth 0 o false) by (destruct o; reflexivity).
  rewrite Ho. destruct (nth 0 o false); [reflexivity|].
  rewrite <- !app_assoc. reflexivity.
Qed.

(** X5. Once the device transport exists, [executeCommand] sends the
    command and verifies the response; if one of the two fails it returns
    that error and no bytes.  Otherwise, asked to verify only, it returns
    nothing; else it returns what [ReadBytesAll] returns, bytes and error
    together.  On each of these paths closing the transport is its last
    call, and its only [Close]. *)
Theorem executeCommand_run :
  forall d command o tp tr0,
    createDeviceTransport E d [] = Some ((tp, None), tr0) ->
    executeCommand E d command o [] =
      match run_steps E [tp_Send command; tp_VerifyResponse] tr0 with
      | (Some e, tr1) => Some (([], Some e), tr1 ++ [tp_Close])
      | (None, tr1) =>
        if nth 0 o false then Some (([], None), tr1 ++ [tp_Close])
        else Some ((read_all E tr1, outcome E tr1 tp_ReadBytesAll),
                   tr1 ++ [tp_ReadBytesAll; tp_Close])
      end /\
    ~ In tp_Close
        (snd (run_steps E [tp_Send command; tp_VerifyResponse] tr0)).
Proof.
  intros d command o tp tr0 Htp. split.
  - apply (executeCommand_eq d command o tp tr0 Htp).
  - intros Hin. apply run_steps_In in Hin.
    rewrite (createDeviceTransport_ok E d [] tr0 tp Htp) in Hin.
    unfold handshake in Hin. simpl in Hin.
    repeat destruct Hin as [Hin|Hin]; try discriminate; exact Hin.
Qed.

Lemma executeCommand_verify_only (d : Device) (command : string) :
  exists err tr,
    executeCommand E d command [true] [] = Some (([], err), tr) /\
    ~ In tp_ReadBytesAll tr.
Proof.
  assert (Hno : forall tr : trace,
            Forall (fun e => e <> tp_ReadBytesAll) tr -> ~ In tp_ReadBytesAll tr).
  { intros tr Hall Hin. rewrite Forall_forall in Hall.
    apply (Hall _ Hin). reflexivity. }
  destruct (createDeviceTransport E d []) as [[[tp [e|]] tr0]|] eqn:Htp.
  - destruct (createDeviceTransport_failed d tp e tr0 Htp) as (k & Hk & Htr).
    exists (Some e), tr0.
    split; [apply (executeCommand_after_failed_handshake d tp e tr0 _ _ Htp)|].
    apply Hno. subst tr0. unfold handshake.
    destruct k as [|[|[|[|k]]]]; try lia; simpl;
      repeat constructor; discriminate.
  - rewrite (executeCommand_eq d command [true] tp tr0 Htp).
    rewrite (createDeviceTransport_ok E d [] tr0 tp Htp).
    unfold handshake, run_steps. cbn [app nth].
    destruct (outcome E _ (tp_Send command)) as [e|].
    { eexists; eexists; split; [reflexivity|].
      apply Hno. simpl. repeat constructor; discriminate. }
    destruct (outcome E _ tp_VerifyResponse) as [e|].
    { eexists; eexists; split; [reflexivity|].
      apply Hno. simpl. repeat constructor; discriminate. }
    eexists; eexists; split; [reflexivity|].
    apply Hno. simpl. repeat constructor; discriminate.
  - exfalso. destruct (createDeviceTransport_dials E d) as (res & tr & H).
    congruence.
Qed.

(** X6. [Reverse], [ReverseKill], [ReverseKillAll] and [EnableAdbOverTCP]
    always return, and never read the body of the answer: none of them
    calls [ReadBytesAll], whatever the server does. *)
Theorem verify_only_commands_never_read :
  forall AdbDaemonPort d local remote noRebind port,
    (exists err tr,
       Reverse E d local remote noRebind [] = Some (err, tr) /\
       ~ In tp_ReadBytesAll tr) /\
    (exists err tr,
       ReverseKill E d local [] = Some (err, tr) /\ ~ In tp_ReadBytesAll tr) /\
    (exists err tr,
       ReverseKillAll E d [] = Some (err, tr) /\ ~ In tp_ReadBytesAll tr) /\
    (exists err tr,
       EnableAdbOverTCP E AdbDaemonPort d port [] = Some (err, tr) /\
       ~ In tp_ReadBytesAll tr).
Proof.
  intros AdbDaemonPort d local remote noRebind port.
  assert (Hwrap : forall command,
            exists err tr,
              (bind (executeCommand E d command [true])
                    (fun x => let '(_, err) := x in ret err)) [] =
                Some (err, tr) /\ ~ In tp_ReadBytesAll tr).
  { intros command.
    destruct (executeCommand_verify_only d command) as (err & tr & Heq & Hno).
    exists err, tr. split; [|exact Hno]. unfold bind. rewrite Heq. reflexivity. }
  repeat split; apply Hwrap.
Qed.

(** ** The command line of the shell functions *)

(** X7. The arguments of the shell functions are joined by spaces and
    not quoted: passing the arguments one by one, passing them as one
    argument already joined, or appending them to the command gives the
    same run, for [RunShellCommandWithBytes], [RunShellCommand] and
    [RunShellCommandAsync]. *)
Theorem shell_arguments_are_not_quoted :
  forall d cmd a args,
    let joined := strings.Join (a :: args) " " in
    RunShellCommandWithBytes E d cmd (a :: args) =
      RunShellCommandWithBytes E d cmd [joined] /\
    RunShellCommandWithBytes E d cmd (a :: args) =
      RunShellCommandWithBytes E d (cmd ++ " " ++ joined)%string [] /\
    RunShellCommand E d cmd (a :: args) = RunShellCommand E d cmd [joined] /\
    RunShellCommand E d cmd (a :: args) =
      RunShellCommand E d (cmd ++ " " ++ joined)%string [] /\
    RunShellCommandAsync E d cmd (a :: args) =
      RunShellCommandAsync E d cmd [joined] /\
    RunShellCommandAsync E d cmd (a :: args) =
      RunShellCommandAsync E d (cmd ++ " " ++ joined)%string [].
Proof.
  intros d cmd a args joined.
  assert (H1 : shell_cmd cmd (a :: args) = shell_cmd cmd [joined])
    by reflexivity.
  assert (H2 : shell_cmd cmd (a :: args)
               = shell_cmd (cmd ++ " " ++ joined)%string []) by reflexivity.
  unfold RunShellCommand, RunShellCommandWithBytes, RunShellCommandAsync.
  rewrite <- H1, <- H2. repeat split; reflexivity.
Qed.

(** ** Push, PushFile and List *)

Lemma run_steps_first (s : event) (steps : list event) (tr : trace) :
  exists rest, snd (run_steps E (s :: steps) tr) = tr ++ s :: rest.
Proof.
  simpl. destruct (outcome E tr s) as [e|].
  - exists []. reflexivity.
  - assert (H : forall steps tr, exists rest,
                snd (run_steps E steps tr) = tr ++ rest).
    { clear. intros steps. induction steps as [|x steps IH]; intros tr.
      - exists []. simpl. symmetry. apply app_nil_r.
      - simpl. destruct (outcome E tr x) as [e|].
        + exists [x]. reflexivity.
        + destruct (IH (tr ++ [x])) as [rest ->]. exists (x :: rest).
          rewrite <- app_assoc. reflexivity. }
    destruct (H steps (tr ++ [s])) as [rest ->]. exists rest.
    rewrite <- app_assoc. reflexivity.
Qed.

Lemma Push_eq (d : Device) (source : list byte) (remotePath : string)
    (modification : Time) (mode : list Z) (tp : transport) (tr0 : trace) :
  createDeviceTransport E d [] = Some ((tp, None), tr0) ->
  Push E d source remotePath modification mode [] =
    match outcome E tr0 tp_CreateSyncTransport with
    | Some e => Some (Some e, tr0 ++ [tp_CreateSyncTransport; tp_Close])
    | None =>
      let '(err, tr1) :=
        run_steps E
          [sync_Send "SEND"
             (remotePath ++ "," ++ fmt_d (hd DefaultFileMode mode))%string;
           sync_SendStream source;
           sync_SendStatus "DONE" (uint32 (Unix modification));
           sync_VerifyStatus]
          (tr0 ++ [tp_CreateSyncTransport]) in
      Some (err, tr1 ++ [sync_Close; tp_Close])
    end.
Proof.
  intros Htp. unfold Push. unfold bind at 1. rewrite Htp. cbv beta iota.
  rewrite mode_head.
  unfold defer, sync_Close_, tp_Close_, bind, call, ret.
  destruct (outcome E tr0 tp_CreateSyncTransport) as [e|].
  { rewrite <- !app_assoc. reflexivity. }
  unfold run_steps.
  destruct (outcome E (tr0 ++ _) (sync_Send _ _)) as [e|];
    [rewrite <- !app_assoc; reflexivity|].
  destruct (outcome E ((tr0 ++ _) ++ _) (sync_SendStream _)) as [e|];
    [rewrite <- !app_assoc; reflexivity|].
  destruct (outcome E (((tr0 ++ _) ++ _) ++ _) (sync_SendStatus _ _)) as [e|];
    [rewrite <- !app_assoc; reflexivity|].
  destruct (outcome E ((((tr0 ++ _) ++ _) ++ _) ++ _) sync_VerifyStatus) as [e|];
    rewrite <- !app_assoc; reflexivity.
Qed.

Lemma handshake_no_close (x : event) (d : Device) :
  x = tp_Close \/ x = sync_Close -> ~ In x (handshake d).
Proof.
  unfold handshake. simpl.
  intros [-> | ->] H; repeat destruct H as [H|H]; try discriminate; exact H.
Qed.

(** X10. Once the device transport exists, [Push] always returns and
    releases what it has opened, last opened first: if the sync transport
    cannot be created it returns that error and closes the device
    transport as its last call; otherwise its last two calls are closing
    the sync transport, then the device transport, and no [Close] comes
    earlier. *)
Theorem Push_releases_transports :
  forall d source remotePath modification mode tp tr0,
    createDeviceTransport E d [] = Some ((tp, None), tr0) ->
    match outcome E tr0 tp_CreateSyncTransport with
    | Some e =>
        Push E d source remotePath modification mode [] =
          Some (Some e, tr0 ++ [tp_CreateSyncTransport; tp_Close])
    | None =>
        exists err tr1,
          Push E d source remotePath modification mode [] =
            Some (err, tr1 ++ [sync_Close; tp_Close]) /\
          ~ In sync_Close tr1 /\ ~ In tp_Close tr1
    end.
Proof.
  intros d source remotePath modification mode tp tr0 Htp.
  rewrite (Push_eq d source remotePath modification mode tp tr0 Htp).
  destruct (outcome E tr0 tp_CreateSyncTransport) as [e|]; [reflexivity|].
  set (steps := [_; _; _; _]).
  assert (Hno : forall x, x = tp_Close \/ x = sync_Close ->
                  ~ In x (snd (run_steps E steps (tr0 ++ [tp_CreateSyncTransport])))).
  { intros x Hx Hin. apply run_steps_In in Hin.
    rewrite (createDeviceTransport_ok E d [] tr0 tp Htp) in Hin.
    destruct Hin as [Hin|Hin].
    - apply in_app_or in Hin. destruct Hin as [Hin|Hin].
      + apply (handshake_no_close x d Hx). exact Hin.
      + destruct Hx as [-> | ->]; simpl in Hin;
          repeat destruct Hin as [Hin|Hin]; try discriminate; exact Hin.
    - destruct Hx as [-> | ->]; unfold steps in Hin; simpl in Hin;
        repeat destruct Hin as [Hin|Hin]; try discriminate; exact Hin. }
  destruct (run_steps E steps (tr0 ++ [tp_CreateSyncTransport])) as [err tr1].
  exists err, tr1. split; [reflexivity|]. split; apply Hno; auto.
Qed.

(** X11. [PushFile] pushes with the file's own modification time when none
    is given, with the first given time otherwise, and always with the
    default mode: once the sync transport exists its SEND request is
    [<remote-path>,436], whatever the mode of the local file.  When the
    modification time is needed and [Stat] fails, it returns that error
    without any call. *)
Theorem PushFile_uses_default_mode :
  (forall d local ModTime e remotePath,
     PushFile E d local (ModTime, Some e) remotePath [] [] = Some (Some e, [])) /\
  (forall d local ModTime remotePath,
     PushFile E d local (ModTime, None) remotePath [] =
       Push E d local remotePath ModTime []) /\
  (forall d local local_Stat remotePath m rest,
     PushFile E d local local_Stat remotePath (m :: rest) =
       Push E d local remotePath m []) /\
  (forall d local local_Stat remotePath m more tp tr0,
     createDeviceTransport E d [] = Some ((tp, None), tr0) ->
     outcome E tr0 tp_CreateSyncTransport = None ->
     exists err rest,
       PushFile E d local local_Stat remotePath (m :: more) [] =
         Some (err,
               tr0 ++ tp_CreateSyncTransport ::
                 sync_Send "SEND" (remotePath ++ ",436")%string :: rest)).
Proof.
  split; [|split; [|split]]; try reflexivity.
  intros d local local_Stat remotePath m more tp tr0 Htp Hsync.
  change (PushFile E d local local_Stat remotePath (m :: more) [])
    with (Push E d local remotePath m [] []).
  rewrite (Push_eq d local remotePath m [] tp tr0 Htp), Hsync.
  cbn [hd]. set (steps := [_; _; _; _]).
  destruct (run_steps_first
              (sync_Send "SEND" (remotePath ++ "," ++ fmt_d DefaultFileMode)%string)
              [sync_SendStream local;
               sync_SendStatus "DONE" (uint32 (Unix m));
               sync_VerifyStatus]
              (tr0 ++ [tp_CreateSyncTransport])) as [rest Hrest].
  fold steps in Hrest.
  destruct (run_steps E steps (tr0 ++ [tp_CreateSyncTransport])) as [err tr1].
  simpl in Hrest. subst tr1.
  exists err, (rest ++ [sync_Close; tp_Close]).
  rewrite <- !app_assoc. reflexivity.
Qed.

Lemma List_loop_returns (replies : list (DeviceFileInfo * option error)) :
  forall acc tr,
    (List_loop replies acc tr = None <-> existsb ends_listing replies = false).
Proof.
  induction replies as [|[entry err] rest IH]; intros acc tr.
  - simpl. split; reflexivity.
  - cbn [List_loop existsb]. unfold ends_listing at 1. cbn [fst snd].
    destruct err as [e|]; [split; discriminate|].
    destruct (DeviceFileInfo_eqb entry DeviceFileInfo_zero);
      [split; discriminate|].
    cbn [orb]. apply IH.
Qed.

(** X12. With the device transport open, [List] returns the nil slice
    exactly when it fails before its loop: creating the sync transport or
    sending LIST failed.  Past that point it returns if and only if some
    reply is the zero entry or a failed read, never on a count of
    entries, and the slice it returns then is not nil; its last calls
    close the sync transport, then the device transport. *)
Theorem List_returns :
  forall d remotePath tp tr0,
    createDeviceTransport E d [] = Some ((tp, None), tr0) ->
    match outcome E tr0 tp_CreateSyncTransport with
    | Some e =>
        List_ E d remotePath [] =
          Some ((None, Some e), tr0 ++ [tp_CreateSyncTransport; tp_Close])
    | None =>
      match outcome E (tr0 ++ [tp_CreateSyncTransport])
                    (sync_Send "LIST" remotePath) with
      | Some e =>
          List_ E d remotePath [] =
            Some ((None, Some e),
                  tr0 ++ [tp_CreateSyncTransport; sync_Send "LIST" remotePath;
                          sync_Close; tp_Close])
      | None =>
          (List_ E d remotePath [] = None <->
           existsb ends_listing (dir_entries E) = false) /\
          (forall res err tr,
             List_ E d remotePath [] = Some ((res, err), tr) ->
             res <> None /\ exists tr1, tr = tr1 ++ [sync_Close; tp_Close])
      end
    end.
Proof.
  intros d remotePath tp tr0 Htp.
  destruct (outcome E tr0 tp_CreateSyncTransport) as [e|] eqn:Hsync.
  { unfold List_. unfold bind at 1. rewrite Htp. cbv beta iota.
    unfold defer, tp_Close_, bind, call, ret. rewrite Hsync.
    rewrite <- !app_assoc. reflexivity. }
  destruct (outcome E (tr0 ++ [tp_CreateSyncTransport])
                    (sync_Send "LIST" remotePath)) as [e|] eqn:Hsend.
  { unfold List_. unfold bind at 1. rewrite Htp. cbv beta iota.
    unfold defer, sync_Close_, tp_Close_, bind, call, ret.
    rewrite Hsync, Hsend. rewrite <- !app_assoc. reflexivity. }
  rewrite (List_eq E d remotePath tp tr0 Htp Hsync Hsend).
  split.
  - rewrite <- (List_loop_returns (dir_entries E) []
                  (tr0 ++ [tp_CreateSyncTransport; sync_Send "LIST" remotePath])).
    destruct (List_loop _ _ _) as [[[res err] tr1]|]; split;
      try discriminate; reflexivity.
  - intros res err tr.
    destruct (List_loop _ _ _) as [[[res' err'] tr1]|]; [|discriminate].
    intros H. injection H as <- _ <-. split; [discriminate|].
    exists tr1. reflexivity.
Qed.

End MoreDeviceProperties.

Section MoreShellReader.

Local Open Scope list_scope.

(** X13. Any message that does not end the stream and brings no bytes is
    passed over: a message of a type other than stdout, stderr and exit
    (stdin, closeStdin, windowSizeChange, an unknown id), or a stdout or
    stderr message with an empty payload.  With it or without it the pipe
    is the same. *)
Theorem newShellReader_passes_over :
  forall pre r rest pw,
    ends_stream r = false ->
    is_output r = false \/ payload r = [] ->
    fst (newShellReader_loop (pre ++ r :: rest) pw) =
    fst (newShellReader_loop (pre ++ rest) pw).
Proof.
  intros pre [[ty data] err] rest pw Hend Hsilent. revert pw.
  induction pre as [|[[msgType d] e] pre IH]; intros pw.
  - cbn [app newShellReader_loop]. cbn [ends_stream is_output payload] in *.
    destruct err as [err|]; [discriminate|]. rewrite Hend.
    destruct ((ty =? shellStdout) || (ty =? shellStderr)).
    + destruct Hsilent as [H|H]; [discriminate|]. subst data. reflexivity.
    + destruct (ty =? shellCloseStdin); reflexivity.
  - cbn [app newShellReader_loop]. destruct e as [e|]; [reflexivity|].
    destruct ((msgType =? shellStdout) || (msgType =? shellStderr)).
    + destruct (0 <? Z.of_nat (List.length d)).
      * destruct (pw_Write pw d) as [pw' [werr|]]; [reflexivity|apply IH].
      * apply IH.
    + destruct (msgType =? shellExit); [reflexivity|].
      destruct (msgType =? shellCloseStdin); apply IH.
Qed.

(** Messages of four kinds that are passed over. *)
Lemma newShellReader_passes_over_witness :
  newShellReader [(shellStdout, [x61], None); (shellStdin, [x7a], None);
                  (shellWindowSizeChange, [x7a], None); (9, [x7a], None);
                  (shellStderr, [], None); (shellStdout, [x62], None)] =
  newShellReader [(shellStdout, [x61], None); (shellStdout, [x62], None)].
Proof.
  unfold newShellReader.
  etransitivity.
  { exact (newShellReader_passes_over [(shellStdout, [x61], None)]
             (shellStdin, [x7a], None)
             [(shellWindowSizeChange, [x7a], None); (9, [x7a], None);
              (shellStderr, [], None); (shellStdout, [x62], None)]
             io_Pipe eq_refl (or_introl eq_refl)). }
  etransitivity.
  { exact (newShellReader_passes_over [(shellStdout, [x61], None)]
             (shellWindowSizeChange, [x7a], None)
             [(9, [x7a], None); (shellStderr, [], None);
              (shellStdout, [x62], None)]
             io_Pipe eq_refl (or_introl eq_refl)). }
  etransitivity.
  { exact (newShellReader_passes_over [(shellStdout, [x61], None)]
             (9, [x7a], None)
             [(shellStderr, [], None); (shellStdout, [x62], None)]
             io_Pipe eq_refl (or_introl eq_refl)). }
  exact (newShellReader_passes_over [(shellStdout, [x61], None)]
           (shellStderr, [], None) [(shellStdout, [x62], None)]
           io_Pipe eq_refl (or_intror eq_refl)).
Defined.

Lemma combined_output_app (a b : list read_result) :
  combined_output (a ++ b) = combined_output a ++ combined_output b.
Proof.
  unfold combined_output. rewrite filter_app, map_app, concat_app. reflexivity.
Qed.

Lemma messages_read_app (a b : list read_result) :
  messages_read (a ++ b) =
  if existsb ends_stream a then messages_read a else a ++ messages_read b.
Proof.
  induction a as [|r a IH]; [reflexivity|].
  cbn [app messages_read existsb].
  destruct (ends_stream r); [reflexivity|]. cbn [orb]. rewrite IH.
  destruct (existsb ends_stream a); reflexivity.
Qed.

Lemma messages_read_all (a : list read_result) :
  existsb ends_stream a = false -> messages_read a = a.
Proof.
  induction a as [|r a IH]; [reflexivity|].
  cbn [messages_read existsb]. intros H. apply orb_false_iff in H.
  destruct H as [Hr Ha]. rewrite Hr. f_equal. apply IH. exact Ha.
Qed.

(** X14. The stream only grows.  Reads that come after the stream has
    ended change nothing; before that, the stream for a sequence of reads
    followed by more reads is the stream for the first followed by the
    stream for the others, and it has ended if and only if the latter
    has. *)
Theorem newShellReader_stream_grows :
  forall reads more,
    if existsb ends_stream reads then
      newShellReader (reads ++ more) = newShellReader reads
    else
      buf (newShellReader (reads ++ more)) =
        buf (newShellReader reads) ++ buf (newShellReader more) /\
      wclosed (newShellReader (reads ++ more)) = wclosed (newShellReader more).
Proof.
  intros reads more. rewrite !newShellReader_spec.
  rewrite messages_read_app, existsb_app.
  destruct (existsb ends_stream reads) eqn:Hend; [reflexivity|].
  cbn [buf wclosed orb]. rewrite combined_output_app.
  rewrite (messages_read_all reads Hend). split; reflexivity.
Qed.



End MoreShellReader.

Section MoreReverseList.

Local Open Scope list_scope.

Import utf8 strings.








Lemma chunks_from_nonempty (fuel : nat) :
  forall s, Forall (fun c : Z * bytes => snd c <> []) (chunks_from fuel s).
Proof.
  induction fuel as [|k IH]; intros s; [constructor|].
  destruct s as [|c t]; [constructor|].
  cbn [chunks_from].
  destruct (DecodeRuneInString (c :: t)) as [r w] eqn:Hd.
  pose proof (DecodeRuneInString_width (c :: t) ltac:(discriminate)) as Hw.
  rewrite Hd in Hw. cbn [snd] in Hw.
  constructor; [|apply IH]. cbn [snd].
  destruct (Z.to_nat w) eqn:Hk; [lia|]. discriminate.
Qed.

Lemma fields_chunks_nonempty (f : Z -> bool) (cs : list (Z * bytes)) :
  Forall (fun c : Z * bytes => snd c <> []) cs ->
  forall cur,
    (forall w, cur = Some w -> w <> []) ->
    Forall (fun w : bytes => w <> []) (fields_chunks f cur cs).
Proof.
  induction 1 as [|[r enc] cs Henc Hcs IH]; intros cur Hcur.
  - destruct cur as [w|]; [|constructor].
    constructor; [apply Hcur; reflexivity|constructor].
  - cbn [fields_chunks]. cbn [snd] in Henc. destruct (f r).
    + destruct cur as [w|].
      * constructor; [apply Hcur; reflexivity|]. apply IH. discriminate.
      * apply IH. discriminate.
    + apply IH. intros w Hw. injection Hw as <-.
      destruct cur as [w0|]; [|exact Henc].
      intros Hnil. apply app_eq_nil in Hnil. destruct Hnil as [_ Hnil].
      contradiction.
Qed.

(** No field is empty. *)
Lemma Fields_nonempty (s : string) :
  Forall (fun w => w <> ""%string) (Fields s).
Proof.
  unfold Fields. rewrite FieldsFunc_chunks. apply Forall_map.
  eapply Forall_impl;
    [|apply (fields_chunks_nonempty unicode.IsSpace
               (chunks (list_ascii_of_string s))
               (chunks_from_nonempty _ _) None); discriminate].
  intros w Hw Hnil. apply string_of_list_ascii_nil in Hnil. contradiction.
Qed.

Lemma forward_of_line_entries (line : string) :
  Forall (fun f => Serial f <> ""%string /\ Local f <> ""%string /\
                   Remote f <> ""%string)
         (forward_of_line line) /\
  (List.length (forward_of_line line) <= 1)%nat.
Proof.
  unfold forward_of_line. pose proof (Fields_nonempty line) as H.
  destruct (Fields line) as [|f1 [|f2 [|f3 fs]]].
  - split; [constructor|simpl; lia].
  - split; [constructor|simpl; lia].
  - inversion H as [|? ? H1 H']; subst. inversion H' as [|? ? H2 _]; subst.
    split; [|simpl; lia]. constructor; [|constructor].
    cbn. repeat split; try assumption. discriminate.
  - inversion H as [|? ? H1 H']; subst. inversion H' as [|? ? H2 H'']; subst.
    inversion H'' as [|? ? H3 _]; subst.
    split; [|simpl; lia]. constructor; [|constructor].
    cbn. repeat split; assumption.
Qed.

(** X17. Every forward that [ReverseList] returns has a non-empty serial,
    local and remote endpoint, and there are at most as many forwards as
    the answer has lines. *)
Theorem ReverseList_entries_well_formed :
  forall E d raw tr,
    executeCommand E d "reverse:list-forward" [] [] = Some ((raw, None), tr) ->
    exists forwards,
      ReverseList E d [] = Some ((Some forwards, None), tr) /\
      Forall (fun f => Serial f <> ""%string /\ Local f <> ""%string /\
                       Remote f <> ""%string) forwards /\
      (List.length forwards <=
       List.length (Split (string_of_list_byte raw) "010"%char))%nat.
Proof.
  intros E d raw tr H.
  exists (flat_map forward_of_line (Split (string_of_list_byte raw) "010"%char)).
  split; [|split].
  - unfold ReverseList, bind. rewrite H. unfold ret.
    rewrite ReverseList_loop_spec. reflexivity.
  - generalize (Split (string_of_list_byte raw) "010"%char) as lines.
    induction lines as [|l lines IH]; [constructor|].
    cbn [flat_map]. apply Forall_app. split; [|exact IH].
    apply forward_of_line_entries.
  - generalize (Split (string_of_list_byte raw) "010"%char) as lines.
    induction lines as [|l lines IH]; [simpl; lia|].
    cbn [flat_map List.length]. rewrite length_app.
    pose proof (proj2 (forward_of_line_entries l)). lia.
Qed.

(** The answer of four lines gives two forwards. *)
Lemma ReverseList_entries_well_formed_witness :
  exists forwards,
    ReverseList env_reverse dev0 [] =
      Some ((Some forwards, None),
            handshake dev0 ++
            [tp_Send "reverse:list-forward"; tp_VerifyResponse;
             tp_ReadBytesAll; tp_Close]) /\
    Forall (fun f => Serial f <> ""%string /\ Local f <> ""%string /\
                     Remote f <> ""%string) forwards /\
    (List.length forwards <=
     List.length (Split (string_of_list_byte
                           (list_byte_of_string reverse_answer)) "010"%char))%nat.
Proof.
  exact (ReverseList_entries_well_formed env_reverse dev0
           (list_byte_of_string reverse_answer) _ eq_refl).
Defined.

End MoreReverseList.

Section MoreRuns.

Local Open Scope list_scope.

Variable E : env.

(** X8. For a command line that is not blank, and once the device
    transport exists, [RunShellCommand] requests the service [shell:]
    followed by the command line as joined, not trimmed, and verifies the
    response; a failure of one of the two is returned with the empty
    string.  Otherwise it returns what [ReadBytesAll] returned, as a
    string, with its error, and closes the transport.
    [RunShellCommandAsync] starts with the same request. *)
Theorem RunShellCommand_run :
  forall d cmd args tp tr0,
    strings.TrimSpace (shell_cmd cmd args) <> ""%string ->
    createDeviceTransport E d [] = Some ((tp, None), tr0) ->
    let line := strings.Join (cmd :: args) " " in
    RunShellCommand E d cmd args [] =
      match run_steps E [tp_Send ("shell:" ++ line)%string; tp_VerifyResponse]
                      tr0 with
      | (Some e, tr1) => Some ((""%string, Some e), tr1 ++ [tp_Close])
      | (None, tr1) =>
          Some ((string_of_list_byte (read_all E tr1),
                 outcome E tr1 tp_ReadBytesAll),
                tr1 ++ [tp_ReadBytesAll; tp_Close])
      end /\
    exists res rest,
      RunShellCommandAsync E d cmd args [] =
        Some (res, tr0 ++ tp_Send ("shell:" ++ line)%string :: rest).
Proof.
  intros d cmd args tp tr0 Hcmd Htp line. subst line.
  rewrite <- shell_cmd_Join. split.
  - unfold RunShellCommand, RunShellCommandWithBytes.
    rewrite (not_blank_eqb _ Hcmd). unfold bind.
    rewrite (executeCommand_eq E d _ [] tp tr0 Htp). cbn [nth].
    destruct (run_steps E _ tr0) as [[e|] tr1]; reflexivity.
  - rewrite (RunShellCommandAsync_eq E d cmd args tp tr0 Hcmd Htp).
    unfold shell_steps.
    destruct (run_steps_first E (tp_Send ("shell:" ++ shell_cmd cmd args)%string)
                [tp_VerifyResponse; tp_CreateShellTransport] tr0)
      as [rest Hrest].
    destruct (run_steps E _ tr0) as [[e|] tr1]; simpl in Hrest; subst tr1.
    + eexists. exists (rest ++ [tp_Close]).
      rewrite <- app_assoc. reflexivity.
    + eexists. exists rest. reflexivity.
Qed.

(** X9. [LogcatClear] is the shell command [logcat -c] with its output
    dropped: it makes the calls of [RunShellCommandWithBytes] for
    [logcat] with the argument [-c] and returns its error. *)
Theorem LogcatClear_is_a_shell_command :
  forall d,
    LogcatClear E d [] =
      match RunShellCommandWithBytes E d "logcat" ["-c"%string] [] with
      | Some ((_, err), tr) => Some (err, tr)
      | None => None
      end.
Proof.
  intros d. unfold LogcatClear, RunShellCommandWithBytes.
  replace (strings.TrimSpace (shell_cmd "logcat" ["-c"%string]) =? "")%string
    with false by (vm_compute; reflexivity).
  change ("shell:" ++ shell_cmd "logcat" ["-c"%string])%string
    with "shell:logcat -c"%string.
  unfold bind, ret.
  destruct (executeCommand E d "shell:logcat -c" [] []) as [[[raw err] tr]|];
    reflexivity.
Qed.

End MoreRuns.

(** ** Runs on concrete environments *)

Section MoreWitnesses.

Local Open Scope list_scope.

(** X4 on a run where dialling succeeds and the handshake request fails. *)
Lemma handshake_failure_returns_at_once_witness :
  createDeviceTransport (env_fail_at 1) dev0 [] =
    Some ((transport_zero, Some err_refused),
          [newTransport "localhost:5037";
           tp_Send "host:transport:emulator-5554"]) /\
  executeCommand (env_fail_at 1) dev0 "reverse:list-forward" [] [] =
    Some (([], Some err_refused),
          [newTransport "localhost:5037";
           tp_Send "host:transport:emulator-5554"]).
Proof.
  assert (H : createDeviceTransport (env_fail_at 1) dev0 [] =
    Some ((transport_zero, Some err_refused),
          [newTransport "localhost:5037";
           tp_Send "host:transport:emulator-5554"])) by reflexivity.
  split; [exact H|].
  exact (proj1 (proj2 (proj2
           (handshake_failure_returns_at_once (env_fail_at 1) dev0 _ _ _ H)))
           "reverse:list-forward"%string []).
Defined.

(** X5 on a run where [ReadBytesAll] fails: bytes and error come back
    together, and the transport is closed. *)
Lemma executeCommand_run_witness :
  createDeviceTransport (env_fail_at 5) dev0 [] =
    Some ((mkTransport "localhost:5037", None), handshake dev0) /\
  executeCommand (env_fail_at 5) dev0 "shell:ls" [] [] =
    Some (([], Some err_refused),
          handshake dev0 ++
          [tp_Send "shell:ls"; tp_VerifyResponse; tp_ReadBytesAll; tp_Close]).
Proof.
  assert (H : createDeviceTransport (env_fail_at 5) dev0 [] =
    Some ((mkTransport "localhost:5037", None), handshake dev0)) by reflexivity.
  split; [exact H|].
  exact (proj1 (executeCommand_run (env_fail_at 5) dev0 "shell:ls" [] _ _ H)).
Defined.

(** X10 on a run where the sync transport cannot be created. *)
Lemma Push_releases_transports_witness :
  createDeviceTransport (env_fail_at 3) dev0 [] =
    Some ((mkTransport "localhost:5037", None), handshake dev0) /\
  Push (env_fail_at 3) dev0 [x68; x69] "/sdcard/f" Time_zero [] [] =
    Some (Some err_refused,
          handshake dev0 ++ [tp_CreateSyncTransport; tp_Close]).
Proof.
  assert (H : createDeviceTransport (env_fail_at 3) dev0 [] =
    Some ((mkTransport "localhost:5037", None), handshake dev0)) by reflexivity.
  split; [exact H|].
  exact (Push_releases_transports (env_fail_at 3) dev0 [x68; x69] "/sdcard/f"
           Time_zero [] _ _ H).
Defined.

(** X11 on a run where every call succeeds. *)
Lemma PushFile_uses_default_mode_witness :
  createDeviceTransport env_quiet dev0 [] =
    Some ((mkTransport "localhost:5037", None), handshake dev0) /\
  outcome env_quiet (handshake dev0) tp_CreateSyncTransport = None /\
  exists err rest,
    PushFile env_quiet dev0 [x68; x69] (Time_zero, None) "/sdcard/f"
             [Time_zero] [] =
      Some (err,
            handshake dev0 ++ tp_CreateSyncTransport ::
              sync_Send "SEND" "/sdcard/f,436" :: rest).
Proof.
  assert (H : createDeviceTransport env_quiet dev0 [] =
    Some ((mkTransport "localhost:5037", None), handshake dev0)) by reflexivity.
  split; [exact H|]. split; [reflexivity|].
  exact (proj2 (proj2 (proj2 (PushFile_uses_default_mode env_quiet)))
           dev0 [x68; x69] (Time_zero, None) "/sdcard/f"%string Time_zero []
           _ _ H eq_refl).
Defined.

(** X12 on a directory with one file: [List] returns a non-nil slice. *)
Lemma List_returns_witness :
  createDeviceTransport env_listing dev0 [] =
    Some ((mkTransport "localhost:5037", None), handshake dev0) /\
  (List_ env_listing dev0 "/etc" [] = None <->
   existsb ends_listing (dir_entries env_listing) = false) /\
  existsb ends_listing (dir_entries env_listing) = true.
Proof.
  assert (H : createDeviceTransport env_listing dev0 [] =
    Some ((mkTransport "localhost:5037", None), handshake dev0)) by reflexivity.
  split; [exact H|]. split; [|reflexivity].
  exact (proj1 (List_returns env_listing dev0 "/etc" _ _ H)).
Defined.

(** X8 on a run where every call succeeds. *)
Lemma RunShellCommand_run_witness :
  strings.TrimSpace (shell_cmd "echo" ["hi"%string]) <> ""%string /\
  createDeviceTransport env_hi dev0 [] =
    Some ((mkTransport "localhost:5037", None), handshake dev0) /\
  RunShellCommand env_hi dev0 "echo" ["hi"%string] [] =
    Some ((("hi" ++ nl)%string, None),
          handshake dev0 ++
          [tp_Send "shell:echo hi"; tp_VerifyResponse; tp_ReadBytesAll;
           tp_Close]).
Proof.
  assert (H1 : strings.TrimSpace (shell_cmd "echo" ["hi"%string]) <> ""%string)
    by (vm_compute; discriminate).
  assert (H2 : createDeviceTransport env_hi dev0 [] =
    Some ((mkTransport "localhost:5037", None), handshake dev0)) by reflexivity.
  split; [exact H1|]. split; [exact H2|].
  exact (proj1 (RunShellCommand_run env_hi dev0 "echo" ["hi"%string] _ _ H1 H2)).
Defined.

End MoreWitnesses.
